(** * Population-code correlation demo: estimator, tuning curve and ellipse fit

    A shallow embedding of [demo_code_addition.py].  Python floats are read as
    exact real numbers ([R]); Python integers are [Z]; a one-dimensional numpy
    array is a [list R] and a two-dimensional one the list of its rows.  Code
    that can raise returns a sum whose left injection carries the exception.
    Rounding is not modelled.  The two ends of the range of doubles are
    modelled where a Python operation raises there ([sigma**2] overflowing,
    a Python float divided by a square that underflowed to zero).  Where
    numpy would put [nan] or [inf] into an array (a division by zero inside
    an array operation) the reals have no counterpart; the statements
    exclude those inputs by hypothesis. *)

From Stdlib Require Import Reals Lra Lia ZArith List Bool Psatz.
Import ListNotations.

Open Scope R_scope.

(** ** Exceptions *)

(** [ZeroDivisionError], [OverflowError] and [ValueError] are what the
    modelled lines can raise.  [ConfigurationError] is the error the
    specification names for an invalid configuration; no line of the script
    raises it. *)
Inductive exn : Type :=
| ZeroDivisionError
| OverflowError
| ValueError
| ConfigurationError.

Definition Exc (X : Type) : Type := (exn + X)%type.

Definition ret {X : Type} (x : X) : Exc X := inr x.
Definition raise {X : Type} (e : exn) : Exc X := inl e.

Definition bind {X Y : Type} (m : Exc X) (k : X -> Exc Y) : Exc Y :=
  match m with
  | inl e => inl e
  | inr x => k x
  end.

Notation "x <- m ;; k" := (bind m (fun x => k))
  (at level 61, m at next level, right associativity).

(** [for x in xs: out.append(f x)], stopping at the first exception. *)
Fixpoint for_append {X Y : Type} (f : X -> Exc Y) (xs : list X) : Exc (list Y) :=
  match xs with
  | [] => ret []
  | x :: xs' => y <- f x ;; ys <- for_append f xs' ;; ret (y :: ys)
  end.

(** ** The fragment of numpy the script uses *)

Module np.

(** [np.sum] of a one-dimensional array. *)
Definition sum (v : list R) : R := fold_right Rplus 0 v.

(** [np.sum(m, axis=1)]: one sum per row. *)
Definition sum_axis1 (m : list (list R)) : list R := map sum m.

(** Cut [l] into [rows] consecutive pieces of [cols] entries each. *)
Fixpoint chunks (rows cols : nat) (l : list R) : list (list R) :=
  match rows with
  | O => []
  | S rows' => firstn cols l :: chunks rows' cols (skipn cols l)
  end.

(** [arr.reshape((rows, cols))] in row-major order.  A negative entry of the
    shape stands for an unknown dimension; with the shapes the estimator
    passes (both negative, or zero rows) numpy cannot infer it, and the
    call raises [ValueError], as it does when the sizes do not match. *)
Definition reshape (arr : list R) (rows cols : Z) : Exc (list (list R)) :=
  if ((rows <? 0) || (cols <? 0))%Z then raise ValueError
  else if (Z.of_nat (length arr) =? rows * cols)%Z
       then ret (chunks (Z.to_nat rows) (Z.to_nat cols) arr)
       else raise ValueError.

(** [arr[:stop]] for a non-negative [stop]. *)
Definition slice_to (stop : Z) (arr : list R) : list R :=
  firstn (Z.to_nat stop) arr.

(** [np.arange(0, n)] as floats. *)
Definition arange (n : Z) : list R :=
  map (fun i => INR i) (seq 0 (Z.to_nat n)).

(** [np.mean] of a one-dimensional array. *)
Definition mean (v : list R) : R := sum v / INR (length v).

End np.

(** ** Firing-rate estimator (lines 16-38) *)

(** The body of the loop over neurons, for one row [spike_train[i,:]].
    [//] is Python's floor division, which is [Z.div]. *)
Definition firing_rate_row (bin_size : Z) (spike_binary : list R) : Exc (list R) :=
  if (bin_size =? 0)%Z then raise ZeroDivisionError
  else
    let num_bins := (Z.of_nat (length spike_binary) / bin_size)%Z in
    let arr := np.slice_to (num_bins * bin_size) spike_binary in
    split_arr <- np.reshape arr num_bins bin_size ;;
    let bin_sums := np.sum_axis1 split_arr in
    ret (map (fun s => s / IZR bin_size) bin_sums).

(** [spike_train] is a two-dimensional array (lines 17-18 read its
    [shape]); the result is a Python list with one array per neuron.  Both
    are lists of rows here, but the result is not an array: the function
    cannot be fed its own output. *)
Definition firing_rate (spike_train : list (list R)) (bin_size : Z)
  : Exc (list (list R)) :=
  for_append (firing_rate_row bin_size) spike_train.

(** ** Tuning curve (lines 42-45) *)

(** [C = 1.0 / (sigma * math.sqrt(2*math.pi))]: a float division, which
    raises when the divisor is zero. *)
Definition gauss_C (sigma : R) : Exc R :=
  if Req_dec_T (sigma * sqrt (2 * PI)) 0 then raise ZeroDivisionError
  else ret (1 / (sigma * sqrt (2 * PI))).

(** A real of at least this magnitude rounds to infinity as a double: the
    midpoint between the largest double and [2^1024]. *)
Definition float_inf_threshold : R := 2 ^ 1024 - 2 ^ 970.

(** A real of at most this magnitude rounds to zero as a double: half the
    smallest positive double. *)
Definition float_zero_threshold : R := / 2 ^ 1075.

(** [sigma**2] on a Python float: [OverflowError] when the square is out of
    range, the square otherwise. *)
Definition py_square (sigma : R) : Exc R :=
  if Rle_dec float_inf_threshold (sigma ^ 2) then raise OverflowError
  else ret (sigma ^ 2).

(** The expression returned for one preferred value, given the square [s2]
    of the spread; Python parses [- dx*dx / d] as [((-dx)*dx) / d]. *)
Definition gauss_term (x mu s2 C : R) : R :=
  let dx := x - mu in
  exp (- dx * dx / (2 * s2)) * C.

(** The function at one preferred value that is a numpy float, as the
    entries of the array [x] of the script are: the division of line 45 is
    numpy's and never raises. *)
Definition theoretical_code (x mu sigma : R) : Exc R :=
  C <- gauss_C sigma ;;
  s2 <- py_square sigma ;;
  ret (gauss_term x mu s2 C).

(** The function at one preferred value that is a Python float: the
    division of line 45 is Python's, and raises when [2 * sigma**2] is
    [0.0], that is when the square has underflowed to zero. *)
Definition theoretical_code_float (x mu sigma : R) : Exc R :=
  C <- gauss_C sigma ;;
  s2 <- py_square sigma ;;
  if Rle_dec s2 float_zero_threshold then raise ZeroDivisionError
  else ret (gauss_term x mu s2 C).

(** The same function called on an array of preferred values, as in lines
    87-89: the constant and the square are computed once and the rest is
    elementwise. *)
Definition theoretical_code_array (x : list R) (mu sigma : R) : Exc (list R) :=
  C <- gauss_C sigma ;;
  s2 <- py_square sigma ;;
  ret (map (fun xi => gauss_term xi mu s2 C) x).

(** ** Parameters of the simulation (lines 49-56) *)

Record params : Type := {
  N : Z;
  num_steps : Z;
  histogram_steps : Z;
  a : R;
  a_sig : R;
  b : R;
  b_sig : R;
  firing_rate_bin : Z
}.

Definition script_params : params := {|
  N := 51;
  num_steps := 2000000;
  histogram_steps := 1000;
  a := - (2 / 10);
  a_sig := 2 / 10;
  b := 2 / 10;
  b_sig := 3 / 10;
  firing_rate_bin := 500
|}.

(** ** Preferred values and theoretical curves (lines 78, 87-89) *)

(** [x = np.arange(0, N)/((N-1)/2)-1]; the divisor is zero only for
    [N = 1]. *)
Definition x (p : params) : list R :=
  map (fun i => i / (IZR (N p - 1) / 2) - 1) (np.arange (N p)).

(** [theoretical_code(x, mu, sigma)/N*2] *)
Definition theo (p : params) (mu sigma : R) : Exc (list R) :=
  t <- theoretical_code_array (x p) mu sigma ;;
  ret (map (fun ti => ti / IZR (N p) * 2) t).

Definition theo_A (p : params) : Exc (list R) := theo p (a p) (a_sig p).
Definition theo_B (p : params) : Exc (list R) := theo p (b p) (b_sig p).

(** The spread [math.sqrt(a_sig**2 + b_sig**2)] is read as the real root of
    the real sum of squares. *)
Definition theo_C (p : params) : Exc (list R) :=
  theo p (a p + b p) (sqrt (a_sig p ^ 2 + b_sig p ^ 2)).

(** ** Initialisation and simulation loop (lines 58-66) *)

(** [np.zeros((n, t))]; numpy refuses negative dimensions. *)
Definition zeros (n t : Z) : Exc (list (list R)) :=
  if ((n <? 0) || (t <? 0))%Z then raise ValueError
  else ret (repeat (repeat 0 (Z.to_nat t)) (Z.to_nat n)).

(** [row[t] = v] for an index inside the row. *)
Fixpoint upd (t : nat) (v : R) (row : list R) : list R :=
  match row, t with
  | [], _ => []
  | _ :: r, O => v :: r
  | y :: r, S t' => y :: upd t' v r
  end.

Fixpoint upd_rows (t : nat) (vs : list R) (m : list (list R)) : list (list R) :=
  match m, vs with
  | row :: m', v :: vs' => upd t v row :: upd_rows t vs' m'
  | _, _ => []
  end.

(** [m[:,t] = v]: [v] must have one entry per row, or a single entry that is
    broadcast; anything else raises [ValueError].  The loop only uses column
    indices below the width of the matrix. *)
Definition set_col (t : nat) (v : list R) (m : list (list R))
  : Exc (list (list R)) :=
  if Nat.eqb (length v) (length m) then ret (upd_rows t v m)
  else if Nat.eqb (length v) 1 then ret (map (upd t (hd 0 v)) m)
  else raise ValueError.

(** [m[:,t]] *)
Definition col (t : nat) (m : list (list R)) : list R :=
  map (fun row => nth t row 0) m.

Record sim_state (Rng : Type) : Type := {
  A : list (list R);
  B : list (list R);
  C : list (list R);
  rng : Rng
}.
Arguments A {Rng} _.
Arguments B {Rng} _.
Arguments C {Rng} _.
Arguments rng {Rng} _.

Section Simulation.

(** The generator and the combiner come from the module [model], which is
    not among the sources at hand.  They are parameters here: functions of
    the random stream that return a spike vector and the advanced stream, or
    raise. *)
Variable Rng : Type.
Variable create_code : R -> R -> Z -> Rng -> Exc (list R * Rng).
Variable compute : list R -> list R -> Rng -> Exc (list R * Rng).

(** Lines 59-61.  Nothing inspects the parameters before the matrices are
    allocated. *)
Definition init (p : params) (g : Rng) : Exc (sim_state Rng) :=
  A0 <- zeros (N p) (num_steps p) ;;
  B0 <- zeros (N p) (num_steps p) ;;
  C0 <- zeros (N p) (num_steps p) ;;
  ret {| A := A0; B := B0; C := C0; rng := g |}.

(** One iteration of the loop, lines 64-66. *)
Definition sim_step (p : params) (t : nat) (st : sim_state Rng)
  : Exc (sim_state Rng) :=
  ra <- create_code (a p) (a_sig p) (N p) (rng st) ;;
  A1 <- set_col t (fst ra) (A st) ;;
  rb <- create_code (b p) (b_sig p) (N p) (snd ra) ;;
  B1 <- set_col t (fst rb) (B st) ;;
  rc <- compute (col t A1) (col t B1) (snd rb) ;;
  C1 <- set_col t (fst rc) (C st) ;;
  ret {| A := A1; B := B1; C := C1; rng := snd rc |}.

(** The loop over [range(num_steps)].  The first component counts the
    iterations that were entered, whether or not they completed. *)
Fixpoint sim_loop (p : params) (ts : list nat) (st : sim_state Rng)
  (entered : nat) : nat * Exc (sim_state Rng) :=
  match ts with
  | [] => (entered, ret st)
  | t :: ts' =>
      match sim_step p t st with
      | inl e => (S entered, raise e)
      | inr st' => sim_loop p ts' st' (S entered)
      end
  end.

(** [range(n)] *)
Definition range (n : Z) : list nat := seq 0 (Z.to_nat n).

(** Lines 49-66 as a function of the parameters and the initial stream. *)
Definition simulate (p : params) (g : Rng) : nat * Exc (sim_state Rng) :=
  match init p g with
  | inl e => (O, raise e)
  | inr st => sim_loop p (range (num_steps p)) st O
  end.

End Simulation.

(** The configurations the specification calls invalid. *)
Definition invalid_configuration (p : params) : Prop :=
  Z.even (N p) = true \/ a_sig p <= 0 \/ b_sig p <= 0 \/
  (firing_rate_bin p <= 0)%Z \/ (num_steps p < 1)%Z.

(** ** Covariance-ellipse fit (lines 176-187) *)

Module np_linalg.

(** A 2x2 matrix, entry [mIJ] in row [I] and column [J]. *)
Record mat2 : Type := {
  m00 : R; m01 : R;
  m10 : R; m11 : R
}.

(** [m[:, j]] *)
Definition column (j : nat) (m : mat2) : R * R :=
  match j with
  | O => (m00 m, m10 m)
  | _ => (m01 m, m11 m)
  end.

Definition dot2 (u v : R * R) : R := fst u * fst v + snd u * snd v.

Definition mulv (m : mat2) (v : R * R) : R * R :=
  (m00 m * fst v + m01 m * snd v, m10 m * fst v + m11 m * snd v).

Definition scale (c : R) (v : R * R) : R * R := (c * fst v, c * snd v).

(** The pair returned by [np.linalg.eigh]. *)
Record eigh_result : Type := {
  eigenvalues : R * R;
  eigenvectors : mat2
}.

(** What numpy documents about [eigh]: the eigenvalues come in ascending
    order, and column [i] of the second component is the normalized
    eigenvector of eigenvalue [i]; the columns are orthogonal. *)
Record eigh_spec (m : mat2) (e : eigh_result) : Prop := {
  eigh_ascending : fst (eigenvalues e) <= snd (eigenvalues e);
  eigh_vec0 : mulv m (column 0 (eigenvectors e))
              = scale (fst (eigenvalues e)) (column 0 (eigenvectors e));
  eigh_vec1 : mulv m (column 1 (eigenvectors e))
              = scale (snd (eigenvalues e)) (column 1 (eigenvectors e));
  eigh_unit0 : dot2 (column 0 (eigenvectors e)) (column 0 (eigenvectors e)) = 1;
  eigh_unit1 : dot2 (column 1 (eigenvectors e)) (column 1 (eigenvectors e)) = 1;
  eigh_orth : dot2 (column 0 (eigenvectors e)) (column 1 (eigenvectors e)) = 0
}.

End np_linalg.
Import np_linalg.

(** [np.arctan2(y, x)] on the reals.  The reals have one zero: for a
    negative [x], numpy returns [-pi] at [y = -0.0] where this returns [pi]
    at [y = 0]. *)
Definition arctan2 (y x0 : R) : R :=
  if Rlt_dec 0 x0 then atan (y / x0)
  else if Rlt_dec x0 0 then
    (if Rle_dec 0 y then atan (y / x0) + PI else atan (y / x0) - PI)
  else if Rlt_dec 0 y then PI / 2
  else if Rlt_dec y 0 then - (PI / 2)
  else 0.

(** [np.degrees] *)
Definition degrees (r : R) : R := r * 180 / PI.

(** [np.dot] of two one-dimensional arrays. *)
Fixpoint dot (u v : list R) : R :=
  match u, v with
  | ui :: u', vi :: v' => ui * vi + dot u' v'
  | _, _ => 0
  end.

(** [np.transpose(np.vstack((u, v)))]: one point per bin; [vstack] refuses
    rows of different lengths. *)
Definition data_points_of (u v : list R) : Exc (list (R * R)) :=
  if Nat.eqb (length u) (length v) then ret (combine u v)
  else raise ValueError.

(** [np.cov(data_points, rowvar=False)]: each column is centred on its mean,
    the products are summed, and the sums are multiplied by [1/fact], where
    [fact] is [n - 1], replaced by zero when that is not positive.  With
    fewer than two points numpy divides by zero and the matrix is [nan]
    throughout; the statements about the matrix assume at least two
    points. *)
Definition cov (data_points : list (R * R)) : mat2 :=
  let xs := map fst data_points in
  let ys := map snd data_points in
  let dx := map (fun v => v - np.mean xs) xs in
  let dy := map (fun v => v - np.mean ys) ys in
  let fact := if Rle_dec (INR (length data_points) - 1) 0 then 0
              else INR (length data_points) - 1 in
  {| m00 := dot dx dx * (1 / fact); m01 := dot dx dy * (1 / fact);
     m10 := dot dy dx * (1 / fact); m11 := dot dy dy * (1 / fact) |}.

(** [np.mean(data_points, axis=0)] *)
Definition mean_axis0 (data_points : list (R * R)) : R * R :=
  (np.mean (map fst data_points), np.mean (map snd data_points)).

(** The arguments handed to matplotlib's [Ellipse]. *)
Record ellipse : Type := {
  xy : R * R;
  width : R;
  height : R;
  angle : R
}.

(** Line 183: [eigenvectors[:, 0][::-1]] is column 0 reversed; the star
    unpacks it as the two arguments of [np.arctan2], so the second entry of
    the column is [y] and the first is [x]. *)
Definition angle_of (e : eigh_result) : R :=
  let v := column 0 (eigenvectors e) in
  degrees (arctan2 (snd v) (fst v)).

Section EllipseFit.

(** [np.linalg.eigh] is library code; the fit is stated for any function
    standing for it, and the theorems assume [eigh_spec] of its result. *)
Variable eigh : mat2 -> eigh_result.

Definition fit_ellipse (u v : list R) : Exc ellipse :=
  data_points <- data_points_of u v ;;
  let cov_matrix := cov data_points in
  let mean := mean_axis0 data_points in
  let e := eigh cov_matrix in
  ret {| xy := mean;
         width := 4 * sqrt (fst (eigenvalues e));
         height := 4 * sqrt (snd (eigenvalues e));
         angle := angle_of e |}.

End EllipseFit.

(** ** Reference forms used in the statements *)

(** Number of complete bins of a row, as a natural number. *)
Definition bins_of (bin_size : Z) (row : list R) : nat :=
  Z.to_nat (Z.of_nat (length row) / bin_size).

(** The rate series of one row for a positive bin size, without the error
    paths: the sums of the complete bins, each divided by the bin size. *)
Definition binned (bin_size : Z) (row : list R) : list R :=
  map (fun s => s / IZR bin_size)
      (np.sum_axis1 (np.chunks (bins_of bin_size row) (Z.to_nat bin_size) row)).

(** Arithmetic mean of the samples [row[start], ..., row[start+len-1]]. *)
Definition window_mean (row : list R) (start len : nat) : R :=
  np.sum (map (fun j => nth (start + j) row 0) (seq 0 len)) / INR len.

(** The closed form of the tuning curve given in the specification. *)
Definition gaussian (x0 mu sigma : R) : R :=
  exp (- (x0 - mu) ^ 2 / (2 * sigma ^ 2)) / (sigma * sqrt (2 * PI)).



(** A stand-in generator and combiner for concrete runs: the generator
    returns [n] silent neurons, the combiner its first argument; neither
    touches the stream. *)
Definition silent_code (_ _ : R) (n : Z) (g : unit) : Exc (list R * unit) :=
  ret (repeat 0 (Z.to_nat n), g).

Definition first_code (u _ : list R) (g : unit) : Exc (list R * unit) :=
  ret (u, g).

(** The script's parameters with an even population and a single step, and
    with no step at all. *)
Definition even_params : params := {|
  N := 2; num_steps := 1; histogram_steps := 1000;
  a := - (2 / 10); a_sig := 2 / 10; b := 2 / 10; b_sig := 3 / 10;
  firing_rate_bin := 500
|}.

Definition stepless_params : params := {|
  N := 51; num_steps := 0; histogram_steps := 1000;
  a := - (2 / 10); a_sig := 2 / 10; b := 2 / 10; b_sig := 3 / 10;
  firing_rate_bin := 500
|}.

(** [z] is an eigenvector of [m] for the eigenvalue [lam]. *)
Definition is_eigenvector (m : mat2) (lam : R) (z : R * R) : Prop :=
  z <> (0, 0) /\ mulv m z = scale lam z.

(** The quadratic form of a matrix. *)
Definition quad (m : mat2) (z : R * R) : R := dot2 z (mulv m z).

(** Two rate series whose scatter lies on a horizontal line, their
    covariance matrix, and an eigendecomposition of it. *)
Definition flat_u : list R := [0; 2].
Definition flat_v : list R := [0; 0].

Definition flat_cov : mat2 := {| m00 := 2; m01 := 0; m10 := 0; m11 := 0 |}.

Definition flat_eigh : eigh_result := {|
  eigenvalues := (0, 2);
  eigenvectors := {| m00 := 0; m01 := 1; m10 := 1; m11 := 0 |}
|}.

(** An eigendecomposition in closed form, for a symmetric matrix: it shows
    that the contract of [eigh] can be met on every input of the fit. *)
Definition eigh_closed (m : mat2) : eigh_result :=
  if Req_dec_T (m01 m) 0 then
    if Rle_dec (m00 m) (m11 m) then
      {| eigenvalues := (m00 m, m11 m);
         eigenvectors := {| m00 := 1; m01 := 0; m10 := 0; m11 := 1 |} |}
    else
      {| eigenvalues := (m11 m, m00 m);
         eigenvectors := {| m00 := 0; m01 := 1; m10 := 1; m11 := 0 |} |}
  else
    let h := (m00 m + m11 m) / 2 in
    let r := sqrt (((m00 m - m11 m) / 2) * ((m00 m - m11 m) / 2) + m01 m * m01 m) in
    let l0 := h - r in
    let l1 := h + r in
    let n0 := sqrt (m01 m * m01 m + (l0 - m00 m) * (l0 - m00 m)) in
    let n1 := sqrt (m01 m * m01 m + (l1 - m00 m) * (l1 - m00 m)) in
    {| eigenvalues := (l0, l1);
       eigenvectors := {| m00 := m01 m / n0; m01 := m01 m / n1;
                          m10 := (l0 - m00 m) / n0; m11 := (l1 - m00 m) / n1 |} |}.

(** ** Total activation and histograms (lines 69-81) *)

(** [np.sum(m)] of a two-dimensional array: the sum of all entries. *)
Definition activation (m : list (list R)) : R := np.sum (np.sum_axis1 m).

(** [row[0:stop]]: a negative [stop] counts from the end, and the result is
    clipped to the row. *)
Definition slice_0 (stop : Z) (row : list R) : list R :=
  if (stop <? 0)%Z then firstn (Z.to_nat (Z.of_nat (length row) + stop)) row
  else firstn (Z.to_nat stop) row.

(** [np.sum(m[:,0:histogram_steps], axis=1)/histogram_steps] *)
Definition histogram (m : list (list R)) (histogram_steps : Z) : list R :=
  map (fun s => s / IZR histogram_steps)
      (np.sum_axis1 (map (slice_0 histogram_steps) m)).

(** A matrix of [n] rows with [t] entries each. *)
Definition shaped (n t : nat) (m : list (list R)) : Prop :=
  length m = n /\ Forall (fun row => length row = t) m.

(** The state right after set-up for [even_params]. *)
Definition even_state : sim_state unit :=
  {| A := [[0]; [0]]; B := [[0]; [0]]; C := [[0]; [0]]; rng := tt |}.

(** The three matrices of a state have [n] rows of [t] entries. *)
Definition state_shaped {Rng : Type} (n t : nat) (st : sim_state Rng) : Prop :=
  shaped n t (A st) /\ shaped n t (B st) /\ shaped n t (C st).

(** Two neurons, two steps, bin size 1, and the state the stand-in
    generator and combiner leave after the run. *)
Definition pair_params : params := {|
  N := 2; num_steps := 2; histogram_steps := 1;
  a := 0; a_sig := 1; b := 0; b_sig := 1;
  firing_rate_bin := 1
|}.

Definition pair_state : sim_state unit :=
  {| A := [[0; 0]; [0; 0]]; B := [[0; 0]; [0; 0]]; C := [[0; 0]; [0; 0]]; rng := tt |}.

(** A second pair of stand-ins, on a stream of natural numbers: the
    generator returns [n] copies of the stream value and advances the
    stream, the combiner adds its arguments entry by entry and advances the
    stream.  Below them, a state before step 1 of a run with two neurons and
    two steps, and the state after it. *)
Definition counting_code (_ _ : R) (n : Z) (g : nat) : Exc (list R * nat) :=
  ret (repeat (INR g) (Z.to_nat n), S g).

Definition adding_code (u v : list R) (g : nat) : Exc (list R * nat) :=
  ret (map (fun pq => fst pq + snd pq) (combine u v), S g).

Definition counted_before : sim_state nat :=
  {| A := [[1; 0]; [2; 0]]; B := [[3; 0]; [4; 0]]; C := [[5; 0]; [6; 0]];
     rng := 5%nat |}.

Definition counted_after : sim_state nat :=
  {| A := [[1; INR 5]; [2; INR 5]];
     B := [[3; INR 6]; [4; INR 6]];
     C := [[5; INR 5 + INR 6]; [6; INR 5 + INR 6]];
     rng := 8%nat |}.

(** * Properties *)

(** ** Lists, chunks and sums *)

Lemma for_append_total {X Y : Type} (f : X -> Exc Y) (g : X -> Y) (xs : list X) :
  (forall v, In v xs -> f v = ret (g v)) ->
  for_append f xs = ret (map g xs).
Proof.
  induction xs as [|v xs IH]; intros Hf; simpl.
  - reflexivity.
  - rewrite (Hf v) by (left; reflexivity). simpl.
    rewrite IH by (intros w Hw; apply Hf; right; exact Hw).
    reflexivity.
Qed.

Lemma chunks_length rows cols l : length (np.chunks rows cols l) = rows.
Proof.
  revert l. induction rows as [|r IH]; intros l; simpl; [reflexivity|].
  now rewrite IH.
Qed.

Lemma chunks_nth rows cols l k :
  (k < rows)%nat ->
  nth k (np.chunks rows cols l) [] = firstn cols (skipn (k * cols) l).
Proof.
  revert l k. induction rows as [|r IH]; intros l k Hk; [lia|].
  destruct k as [|k]; simpl.
  - reflexivity.
  - rewrite IH by lia. now rewrite skipn_skipn, Nat.add_comm.
Qed.

Lemma chunks_prefix rows cols l :
  np.chunks rows cols (firstn (rows * cols) l) = np.chunks rows cols l.
Proof.
  revert l. induction rows as [|r IH]; intros l; simpl; [reflexivity|].
  f_equal.
  - rewrite firstn_firstn. f_equal. lia.
  - rewrite skipn_firstn_comm.
    replace (cols + r * cols - cols)%nat with (r * cols)%nat by lia.
    apply IH.
Qed.

Lemma sum_app u v : np.sum (u ++ v) = np.sum u + np.sum v.
Proof.
  induction u as [|y u IH]; simpl.
  - lra.
  - unfold np.sum in *. simpl. rewrite IH. lra.
Qed.

Lemma sum_chunks rows cols l :
  np.sum (np.sum_axis1 (np.chunks rows cols l)) = np.sum (firstn (rows * cols) l).
Proof.
  revert l. induction rows as [|r IH]; intros l; simpl; [reflexivity|].
  change (np.sum (np.sum (firstn cols l) :: np.sum_axis1 (np.chunks r cols (skipn cols l))))
    with (np.sum (firstn cols l) + np.sum (np.sum_axis1 (np.chunks r cols (skipn cols l)))).
  rewrite IH.
  rewrite <- sum_app. f_equal.
  rewrite <- (firstn_skipn cols (firstn (cols + r * cols) l)).
  rewrite firstn_firstn, skipn_firstn_comm.
  f_equal; f_equal; lia.
Qed.

Lemma sum_scaled c l :
  np.sum (map (fun s => s / c) l) = np.sum l / c.
Proof.
  induction l as [|y l IH]; unfold np.sum in *; simpl.
  - unfold Rdiv. ring.
  - rewrite IH. unfold Rdiv. ring.
Qed.

Lemma firstn_as_nth (c : nat) (l : list R) :
  (c <= length l)%nat ->
  firstn c l = map (fun j => nth j l 0) (seq 0 c).
Proof.
  revert l. induction c as [|c IH]; intros l Hc; [reflexivity|].
  destruct l as [|y l]; [simpl in Hc; lia|].
  simpl. f_equal. rewrite <- seq_shift, map_map.
  apply IH. simpl in Hc. lia.
Qed.

(** ** The estimator in closed form *)

Lemma bins_fit bin_size row :
  (1 <= bin_size)%Z ->
  (bins_of bin_size row * Z.to_nat bin_size <= length row)%nat.
Proof.
  intros Hb. unfold bins_of.
  pose proof (Z.mul_div_le (Z.of_nat (length row)) bin_size ltac:(lia)) as H.
  pose proof (Z.div_pos (Z.of_nat (length row)) bin_size ltac:(lia) ltac:(lia)) as H0.
  nia.
Qed.

Lemma firing_rate_row_binned bin_size row :
  (1 <= bin_size)%Z ->
  firing_rate_row bin_size row = ret (binned bin_size row).
Proof.
  intros Hb. unfold firing_rate_row.
  destruct (Z.eqb_spec bin_size 0) as [->|_]; [lia|].
  set (q := (Z.of_nat (length row) / bin_size)%Z).
  assert (Hq : (0 <= q)%Z) by (apply Z.div_pos; lia).
  pose proof (bins_fit bin_size row Hb) as Hfit.
  unfold np.reshape, np.slice_to.
  replace ((q <? 0) || (bin_size <? 0))%Z with false
    by (symmetry; apply orb_false_intro; apply Z.ltb_ge; lia).
  assert (Hn : Z.to_nat (q * bin_size) = (bins_of bin_size row * Z.to_nat bin_size)%nat).
  { unfold bins_of. fold q. rewrite Z2Nat.inj_mul by lia. reflexivity. }
  rewrite Hn.
  rewrite length_firstn, Nat.min_l by exact Hfit.
  replace (Z.of_nat (bins_of bin_size row * Z.to_nat bin_size) =? q * bin_size)%Z
    with true by (symmetry; apply Z.eqb_eq; rewrite <- Hn; lia).
  simpl. unfold binned. fold q. fold (bins_of bin_size row).
  replace (Z.to_nat q) with (bins_of bin_size row) by reflexivity.
  now rewrite chunks_prefix.
Qed.

Lemma firing_rate_binned spike_train bin_size :
  (1 <= bin_size)%Z ->
  firing_rate spike_train bin_size = ret (map (binned bin_size) spike_train).
Proof.
  intros Hb. unfold firing_rate. apply for_append_total.
  intros row _. now apply firing_rate_row_binned.
Qed.

Lemma binned_length bin_size row :
  length (binned bin_size row) = bins_of bin_size row.
Proof.
  unfold binned, np.sum_axis1. now rewrite !length_map, chunks_length.
Qed.

Lemma binned_nth bin_size row k :
  (1 <= bin_size)%Z ->
  (k < bins_of bin_size row)%nat ->
  nth k (binned bin_size row) 0
  = window_mean row (k * Z.to_nat bin_size) (Z.to_nat bin_size).
Proof.
  intros Hb Hk. unfold binned, np.sum_axis1.
  pose proof (bins_fit bin_size row Hb) as Hfit.
  set (c := Z.to_nat bin_size) in *.
  rewrite map_map.
  rewrite (nth_indep _ 0 ((fun l => np.sum l / IZR bin_size) []))
    by (rewrite length_map, chunks_length; exact Hk).
  rewrite (map_nth (fun l => np.sum l / IZR bin_size)).
  rewrite chunks_nth by exact Hk.
  unfold window_mean.
  rewrite firstn_as_nth by (rewrite length_skipn; nia).
  replace (INR c) with (IZR bin_size)
    by (unfold c; rewrite INR_IZR_INZ, Z2Nat.id by lia; reflexivity).
  f_equal. f_equal. apply map_ext. intros j.
  rewrite nth_skipn. reflexivity.
Qed.

(** ** Firing-rate estimator *)

(** C3: for a spike train whose rows all have [T] samples and a bin size of
    at least 1, the estimator returns one rate sequence per neuron, each of
    length [T // bin_size]; with [T = 2000] that is 4 for bin size 500 and 0
    (the empty sequence, no error) for bin size 2001. *)
Theorem firing_rate_lengths (spike_train : list (list R)) (bin_size : Z) (T : nat) :
  (1 <= bin_size)%Z ->
  Forall (fun row => length row = T) spike_train ->
  exists rates,
    firing_rate spike_train bin_size = ret rates /\
    length rates = length spike_train /\
    Forall (fun r => length r = Z.to_nat (Z.of_nat T / bin_size)) rates /\
    (T = 2000%nat -> bin_size = 500%Z -> Forall (fun r => length r = 4%nat) rates) /\
    (T = 2000%nat -> bin_size = 2001%Z -> Forall (fun r => r = []) rates).
Proof.
  intros Hb HT. exists (map (binned bin_size) spike_train).
  assert (Hlen : Forall (fun r => length r = Z.to_nat (Z.of_nat T / bin_size))
                   (map (binned bin_size) spike_train)).
  { apply Forall_map. eapply Forall_impl; [|exact HT].
    intros row Hrow. cbv beta in Hrow |- *.
    rewrite binned_length. unfold bins_of. now rewrite Hrow. }
  repeat split.
  - now apply firing_rate_binned.
  - apply length_map.
  - exact Hlen.
  - intros -> ->. exact Hlen.
  - intros -> ->. eapply Forall_impl; [|exact Hlen].
    intros r Hr. cbv beta in Hr. change (length r = 0%nat) in Hr.
    now apply length_zero_iff_nil.
Qed.

Lemma firing_rate_lengths_witness :
  exists rates,
    firing_rate [[1; 0; 1; 1; 0]; [0; 0; 1; 0; 1]] 2 = ret rates /\
    length rates = 2%nat /\
    Forall (fun r => length r = 2%nat) rates.
Proof.
  destruct (firing_rate_lengths [[1; 0; 1; 1; 0]; [0; 0; 1; 0; 1]] 2 5)
    as [rates (H1 & H2 & H3 & _)].
  - lia.
  - repeat constructor.
  - exists rates. repeat split; assumption.
Defined.

(** C4: for a bin size of at least 1, entry [k] of the rate sequence of
    neuron [i] is the arithmetic mean of the [bin_size] consecutive samples
    starting at position [k * bin_size], for every [k] below the number of
    complete bins. *)
Theorem firing_rate_window_mean (spike_train : list (list R)) (bin_size : Z) :
  (1 <= bin_size)%Z ->
  exists rates,
    firing_rate spike_train bin_size = ret rates /\
    forall i k,
      (i < length spike_train)%nat ->
      (Z.of_nat k < Z.of_nat (length (nth i spike_train [])) / bin_size)%Z ->
      nth k (nth i rates []) 0
      = window_mean (nth i spike_train []) (k * Z.to_nat bin_size) (Z.to_nat bin_size).
Proof.
  intros Hb. exists (map (binned bin_size) spike_train). split.
  - now apply firing_rate_binned.
  - intros i k Hi Hk.
    rewrite (nth_indep _ [] (binned bin_size [])) by (rewrite length_map; exact Hi).
    rewrite (map_nth (binned bin_size)).
    apply binned_nth; [exact Hb|]. unfold bins_of. lia.
Qed.

Lemma firing_rate_window_mean_witness :
  exists rates,
    firing_rate [[1; 0; 1; 1; 0]] 2 = ret rates /\
    nth 1 (nth 0 rates []) 0 = window_mean [1; 0; 1; 1; 0] 2 2.
Proof.
  destruct (firing_rate_window_mean [[1; 0; 1; 1; 0]] 2) as [rates [H1 H2]].
  - lia.
  - exists rates. split; [exact H1|].
    apply (H2 0%nat 1%nat); [simpl; lia | vm_compute; reflexivity].
Defined.

Lemma binned_unit row : binned 1 row = row.
Proof.
  unfold binned, bins_of. rewrite Z.div_1_r, Nat2Z.id.
  change (Z.to_nat 1) with 1%nat.
  induction row as [|y row IH]; simpl; [reflexivity|].
  f_equal; [|exact IH].
  unfold np.sum. simpl. unfold Rdiv. rewrite Rinv_1. ring.
Qed.

(** C5: with bin size 1 the estimator returns the spike train itself, row
    by row, so whatever is computed from two rate sequences (the Pearson
    coefficient of lines 153-156 in particular) is the value computed from
    the two raw rows. *)
Theorem firing_rate_bin_size_1 (spike_train : list (list R)) :
  firing_rate spike_train 1 = ret spike_train /\
  forall (X : Type) (pearsonr : list R -> list R -> X) (n1 n2 : nat),
    match firing_rate spike_train 1 with
    | inr rf => pearsonr (nth n1 rf []) (nth n2 rf [])
                = pearsonr (nth n1 spike_train []) (nth n2 spike_train [])
    | inl _ => False
    end.
Proof.
  assert (H : firing_rate spike_train 1 = ret spike_train).
  { rewrite firing_rate_binned by lia. f_equal.
    rewrite <- (map_id spike_train) at 2. apply map_ext. exact binned_unit. }
  split; [exact H|]. intros X pearsonr n1 n2. now rewrite H.
Qed.

Lemma binned_total bin_size row :
  (1 <= bin_size)%Z ->
  IZR bin_size * np.sum (binned bin_size row)
  = np.sum (firstn (bins_of bin_size row * Z.to_nat bin_size) row).
Proof.
  intros Hb. unfold binned. rewrite sum_scaled, sum_chunks.
  field. apply not_0_IZR. lia.
Qed.

Lemma binned_prefix bin_size row row' :
  length row' = length row ->
  firstn (bins_of bin_size row * Z.to_nat bin_size) row'
  = firstn (bins_of bin_size row * Z.to_nat bin_size) row ->
  binned bin_size row' = binned bin_size row.
Proof.
  intros Hlen Hpre. unfold binned.
  assert (Hq : bins_of bin_size row' = bins_of bin_size row)
    by (unfold bins_of; now rewrite Hlen).
  rewrite Hq.
  rewrite <- (chunks_prefix _ _ row'), <- (chunks_prefix _ _ row).
  now rewrite Hpre.
Qed.

(** C10: for a bin size of at least 1 and every neuron, [bin_size] times the
    sum of its rate sequence is the sum of the first
    [(T // bin_size) * bin_size] raw samples of its row; a spike train of the
    same shape that agrees with this one on those prefixes has the same rate
    series, so the samples behind the prefix contribute nothing. *)
Theorem firing_rate_conserves_prefix_sum (spike_train : list (list R)) (bin_size : Z) :
  (1 <= bin_size)%Z ->
  exists rates,
    firing_rate spike_train bin_size = ret rates /\
    (forall i, (i < length spike_train)%nat ->
       let row := nth i spike_train [] in
       IZR bin_size * np.sum (nth i rates [])
       = np.sum (firstn (bins_of bin_size row * Z.to_nat bin_size) row)) /\
    (forall other,
       Forall2 (fun row row' =>
                  length row' = length row /\
                  firstn (bins_of bin_size row * Z.to_nat bin_size) row'
                  = firstn (bins_of bin_size row * Z.to_nat bin_size) row)
               spike_train other ->
       firing_rate other bin_size = ret rates).
Proof.
  intros Hb. exists (map (binned bin_size) spike_train). split; [|split].
  - now apply firing_rate_binned.
  - intros i Hi row.
    rewrite (nth_indep _ [] (binned bin_size [])) by (rewrite length_map; exact Hi).
    rewrite (map_nth (binned bin_size)). now apply binned_total.
  - intros other Hother. rewrite firing_rate_binned by exact Hb. f_equal.
    induction Hother as [|row row' l l' [Hlen Hpre] _ IH]; simpl; [reflexivity|].
    f_equal; [now apply binned_prefix | exact IH].
Qed.

Lemma firing_rate_conserves_prefix_sum_witness :
  exists rates,
    firing_rate [[1; 0; 1; 1; 0]] 2 = ret rates /\
    2 * np.sum (nth 0 rates []) = np.sum [1; 0; 1; 1] /\
    firing_rate [[1; 0; 1; 1; 1]] 2 = ret rates.
Proof.
  destruct (firing_rate_conserves_prefix_sum [[1; 0; 1; 1; 0]] 2)
    as [rates (H1 & H2 & H3)].
  - lia.
  - exists rates. split; [exact H1|]. split.
    + apply (H2 0%nat). simpl. lia.
    + apply H3. repeat constructor.
Defined.

(** ** Tuning curve and theoretical references *)

Lemma sqrt_2PI_pos : 0 < sqrt (2 * PI).
Proof. apply sqrt_lt_R0. pose proof PI_RGT_0. lra. Qed.

Lemma gauss_C_pos sigma :
  sigma <> 0 -> gauss_C sigma = ret (1 / (sigma * sqrt (2 * PI))).
Proof.
  intros Hs. unfold gauss_C.
  destruct (Req_dec_T (sigma * sqrt (2 * PI)) 0) as [H0|_]; [|reflexivity].
  pose proof sqrt_2PI_pos.
  apply Rmult_integral in H0. destruct H0; [contradiction|lra].
Qed.

Lemma gauss_term_closed x0 mu sigma :
  gauss_term x0 mu (sigma ^ 2) (1 / (sigma * sqrt (2 * PI))) = gaussian x0 mu sigma.
Proof.
  unfold gauss_term, gaussian. cbv zeta.
  replace (- (x0 - mu) * (x0 - mu) / (2 * sigma ^ 2))
    with (- (x0 - mu) ^ 2 / (2 * sigma ^ 2)) by (unfold Rdiv; ring).
  unfold Rdiv. ring.
Qed.

Lemma bind_ret {X Y : Type} (v : X) (k : X -> Exc Y) : bind (ret v) k = k v.
Proof. reflexivity. Qed.


Lemma pow2_ge_1 n : 1 <= 2 ^ n.
Proof. apply pow_R1_Rle. lra. Qed.

Lemma float_inf_threshold_large : 2 ^ 970 <= float_inf_threshold.
Proof.
  unfold float_inf_threshold.
  replace (2 ^ 1024) with (2 ^ 54 * 2 ^ 970) by (rewrite <- pow_add; reflexivity).
  assert (H54 : 2 ^ 1 <= 2 ^ 54) by (apply Rle_pow; [lra|lia]).
  rewrite pow_1 in H54.
  pose proof (pow2_ge_1 970) as H970.
  set (u := 2 ^ 54) in *. set (w := 2 ^ 970) in *. clearbody u w. nra.
Qed.

Lemma float_inf_threshold_ge_4 : 4 <= float_inf_threshold.
Proof.
  apply Rle_trans with (2 ^ 970); [|exact float_inf_threshold_large].
  replace 4 with (2 ^ 2) by (simpl; ring). apply Rle_pow; [lra|lia].
Qed.

Lemma float_zero_threshold_small : 0 < float_zero_threshold <= / 1024.
Proof.
  unfold float_zero_threshold.
  assert (H10 : 2 ^ 10 <= 2 ^ 1075) by (apply Rle_pow; [lra|lia]).
  replace (2 ^ 10) with 1024 in H10 by (simpl; ring).
  split.
  - apply Rinv_0_lt_compat. lra.
  - apply Rinv_le_contravar; lra.
Qed.

Lemma py_square_in_range sigma :
  sigma ^ 2 < float_inf_threshold -> py_square sigma = ret (sigma ^ 2).
Proof.
  intros H. unfold py_square.
  destruct (Rle_dec float_inf_threshold (sigma ^ 2)); [lra|reflexivity].
Qed.

Lemma py_square_overflow sigma :
  float_inf_threshold <= sigma ^ 2 -> py_square sigma = raise OverflowError.
Proof.
  intros H. unfold py_square.
  destruct (Rle_dec float_inf_threshold (sigma ^ 2)); [reflexivity|contradiction].
Qed.

Lemma theoretical_code_in_range x0 mu sigma :
  sigma <> 0 -> sigma ^ 2 < float_inf_threshold ->
  theoretical_code x0 mu sigma = ret (gaussian x0 mu sigma).
Proof.
  intros Hs Hr. unfold theoretical_code.
  rewrite gauss_C_pos by exact Hs. rewrite bind_ret.
  rewrite py_square_in_range by exact Hr. rewrite bind_ret.
  now rewrite gauss_term_closed.
Qed.

Lemma theoretical_code_float_in_range x0 mu sigma :
  sigma <> 0 -> float_zero_threshold < sigma ^ 2 < float_inf_threshold ->
  theoretical_code_float x0 mu sigma = ret (gaussian x0 mu sigma).
Proof.
  intros Hs [Hlo Hhi]. unfold theoretical_code_float.
  rewrite gauss_C_pos by exact Hs. rewrite bind_ret.
  rewrite py_square_in_range by exact Hhi. rewrite bind_ret.
  destruct (Rle_dec (sigma ^ 2) float_zero_threshold); [lra|].
  now rewrite gauss_term_closed.
Qed.






Lemma theo_returns p mu sigma :
  sigma <> 0 -> sigma ^ 2 < float_inf_threshold ->
  exists t, theo p mu sigma = ret t /\ length t = Z.to_nat (N p).
Proof.
  intros Hs Hr. unfold theo, theoretical_code_array.
  rewrite gauss_C_pos by exact Hs. rewrite bind_ret.
  rewrite py_square_in_range by exact Hr. rewrite !bind_ret.
  eexists. split; [reflexivity|]. rewrite !length_map.
  unfold x, np.arange. now rewrite !length_map, length_seq.
Qed.

(** With the spreads of the script the three curves are computed. *)
Lemma theo_script_params :
  exists tA tB tC,
    theo_A script_params = ret tA /\ theo_B script_params = ret tB /\
    theo_C script_params = ret tC /\
    length tA = 51%nat /\ length tB = 51%nat /\ length tC = 51%nat.
Proof.
  pose proof float_inf_threshold_ge_4 as H4.
  destruct (theo_returns script_params (a script_params) (a_sig script_params))
    as [tA [HA LA]]; [simpl; lra | simpl a_sig; lra |].
  destruct (theo_returns script_params (b script_params) (b_sig script_params))
    as [tB [HB LB]]; [simpl; lra | simpl b_sig; lra |].
  destruct (theo_returns script_params (a script_params + b script_params)
              (sqrt (a_sig script_params ^ 2 + b_sig script_params ^ 2)))
    as [tC [HC LC]].
  - apply Rgt_not_eq, sqrt_lt_R0. simpl. lra.
  - rewrite pow2_sqrt by (simpl; lra). simpl. lra.
  - exists tA, tB, tC. repeat split; assumption.
Qed.

(** ** Preferred values *)

Lemma x_length p : length (x p) = Z.to_nat (N p).
Proof. unfold x, np.arange. now rewrite !length_map, length_seq. Qed.

Lemma x_nth p i :
  (i < Z.to_nat (N p))%nat ->
  nth i (x p) 0 = INR i / (IZR (N p - 1) / 2) - 1.
Proof.
  intros Hi. unfold x, np.arange. rewrite map_map.
  rewrite (nth_indep _ 0 ((fun k => INR k / (IZR (N p - 1) / 2) - 1) O))
    by (rewrite length_map, length_seq; exact Hi).
  rewrite (map_nth (fun k => INR k / (IZR (N p - 1) / 2) - 1)).
  now rewrite seq_nth by exact Hi.
Qed.

(** C8: neuron [i] has preferred value [i / ((N-1)/2) - 1]; for odd
    [N >= 3] the values start at -1, end at 1, advance by the constant step
    [2/(N-1)] and so stay within [-1, 1], and the value is 0 exactly at the
    middle index [(N-1)/2]. *)
Theorem preferred_values (p : params) :
  Z.odd (N p) = true -> (3 <= N p)%Z ->
  length (x p) = Z.to_nat (N p) /\
  (forall i, (i < Z.to_nat (N p))%nat ->
     nth i (x p) 0 = INR i / ((IZR (N p) - 1) / 2) - 1) /\
  nth 0 (x p) 0 = -1 /\
  nth (Z.to_nat (N p - 1)) (x p) 0 = 1 /\
  (forall i, (S i < Z.to_nat (N p))%nat ->
     nth (S i) (x p) 0 - nth i (x p) 0 = 2 / (IZR (N p) - 1)) /\
  (forall i, (i < Z.to_nat (N p))%nat -> -1 <= nth i (x p) 0 <= 1) /\
  (forall i, (i < Z.to_nat (N p))%nat ->
     (nth i (x p) 0 = 0 <-> Z.of_nat i = ((N p - 1) / 2)%Z)).
Proof.
  intros Hodd HN.
  apply Z.odd_spec in Hodd. destruct Hodd as [m Hm].
  assert (Hm1 : (1 <= m)%Z) by lia.
  assert (HmR : 1 <= IZR m) by (apply IZR_le; exact Hm1).
  assert (HN1 : IZR (N p - 1) = 2 * IZR m)
    by (rewrite Hm, <- mult_IZR; f_equal; lia).
  assert (HNR : IZR (N p) - 1 = 2 * IZR m) by (rewrite <- HN1, minus_IZR; ring).
  assert (Hval : forall i, (i < Z.to_nat (N p))%nat ->
                           nth i (x p) 0 = INR i / IZR m - 1).
  { intros i Hi. rewrite x_nth by exact Hi. rewrite HN1. field. lra. }
  assert (Hbound : forall i, (i < Z.to_nat (N p))%nat -> 0 <= INR i <= 2 * IZR m).
  { intros i Hi. split; [apply pos_INR|].
    rewrite <- mult_IZR, INR_IZR_INZ. apply IZR_le. lia. }
  split; [apply x_length|].
  split; [intros i Hi; rewrite x_nth by exact Hi; now rewrite HNR, HN1|].
  split; [rewrite Hval by lia; simpl; unfold Rdiv; ring|].
  split.
  { rewrite Hval by lia. rewrite INR_IZR_INZ, Z2Nat.id by lia.
    rewrite HN1. field. lra. }
  split.
  { intros i Hi. rewrite !Hval by lia. rewrite S_INR, HNR. field. lra. }
  split.
  { intros i Hi. rewrite Hval by exact Hi. destruct (Hbound i Hi) as [H0 H1].
    split.
    - assert (0 <= INR i / IZR m); [|lra].
      apply Rmult_le_pos; [lra|]. left. apply Rinv_0_lt_compat. lra.
    - assert (INR i / IZR m <= 2); [|lra].
      apply Rmult_le_reg_r with (IZR m); [lra|].
      unfold Rdiv. rewrite Rmult_assoc, Rinv_l by lra. lra. }
  intros i Hi. rewrite Hval by exact Hi.
  replace ((N p - 1) / 2)%Z with m
    by (rewrite Hm; apply Z.div_unique_exact; lia).
  split.
  - intros H0. apply eq_IZR. rewrite <- INR_IZR_INZ.
    assert (INR i / IZR m = 1) as H1 by lra.
    apply (f_equal (fun r => r * IZR m)) in H1.
    unfold Rdiv in H1. rewrite Rmult_assoc, Rinv_l in H1 by lra. lra.
  - intros Hi0. rewrite INR_IZR_INZ, Hi0. field. lra.
Qed.

Lemma preferred_values_witness :
  nth 0 (x script_params) 0 = -1 /\
  nth (Z.to_nat (N script_params - 1)) (x script_params) 0 = 1 /\
  (nth 25 (x script_params) 0 = 0 <-> Z.of_nat 25 = ((N script_params - 1) / 2)%Z).
Proof.
  destruct (preferred_values script_params) as (_ & _ & H0 & H1 & _ & _ & Hmid).
  - reflexivity.
  - simpl. lia.
  - split; [exact H0|]. split; [exact H1|].
    apply Hmid. simpl. lia.
Defined.

(** ** Set-up and simulation loop *)

Section SimulationFacts.

Variable Rng : Type.
Variable create_code : R -> R -> Z -> Rng -> Exc (list R * Rng).
Variable compute : list R -> list R -> Rng -> Exc (list R * Rng).

Lemma sim_loop_entered p ts st n :
  (n + match ts with [] => 0 | _ :: _ => 1 end
   <= fst (sim_loop Rng create_code compute p ts st n))%nat.
Proof.
  revert st n. induction ts as [|t ts IH]; intros st n; simpl.
  - lia.
  - destruct (sim_step Rng create_code compute p t st) as [e|st']; simpl.
    + lia.
    + specialize (IH st' (S n)). destruct ts; lia.
Qed.

Lemma init_checks_dimensions_only p g :
  init Rng p g
  = if ((N p <? 0) || (num_steps p <? 0))%Z then raise ValueError
    else let z := repeat (repeat 0 (Z.to_nat (num_steps p))) (Z.to_nat (N p)) in
         ret {| A := z; B := z; C := z; rng := g |}.
Proof.
  unfold init, zeros.
  destruct ((N p <? 0) || (num_steps p <? 0))%Z; reflexivity.
Qed.

(** C2, as the script has it: nothing validates the parameters and no
    [ConfigurationError] is raised by set-up.  Set-up inspects only the signs
    of [N] and [num_steps] (numpy's [ValueError] for a negative dimension);
    no simulation step is entered exactly when [N < 0] or [num_steps <= 0],
    and then the run ends as set-up did; in every other case, whatever the
    parity of [N], the spreads and the bin size, the first step is entered. *)
Theorem simulate_without_validation (p : params) (g : Rng) :
  init Rng p g
  = (if ((N p <? 0) || (num_steps p <? 0))%Z then raise ValueError
     else let z := repeat (repeat 0 (Z.to_nat (num_steps p))) (Z.to_nat (N p)) in
          ret {| A := z; B := z; C := z; rng := g |}) /\
  init Rng p g <> raise ConfigurationError /\
  (fst (simulate Rng create_code compute p g) = O
   <-> (N p < 0 \/ num_steps p <= 0)%Z) /\
  ((N p < 0 \/ num_steps p <= 0)%Z ->
   simulate Rng create_code compute p g = (O, init Rng p g)).
Proof.
  pose proof (init_checks_dimensions_only p g) as Hinit.
  split; [exact Hinit|].
  split.
  { rewrite Hinit. destruct ((N p <? 0) || (num_steps p <? 0))%Z; discriminate. }
  assert (Hquiet : (N p < 0 \/ num_steps p <= 0)%Z ->
                   simulate Rng create_code compute p g = (O, init Rng p g)).
  { intros Hc. unfold simulate.
    destruct (init Rng p g) as [e|st] eqn:E; [reflexivity|].
    rewrite Hinit in E.
    destruct ((N p <? 0) || (num_steps p <? 0))%Z eqn:Hneg; [discriminate|].
    apply orb_false_elim in Hneg. destruct Hneg as [HN HT].
    apply Z.ltb_ge in HN, HT.
    assert (H0 : num_steps p = 0%Z) by lia.
    unfold range. rewrite H0. reflexivity. }
  split; [|exact Hquiet].
  split.
  - intros Hfst.
    destruct (Z_lt_dec (N p) 0) as [|HN]; [left; assumption|].
    destruct (Z_le_dec (num_steps p) 0) as [|HT]; [right; assumption|].
    exfalso. unfold simulate in Hfst. rewrite Hinit in Hfst.
    replace ((N p <? 0) || (num_steps p <? 0))%Z with false in Hfst
      by (symmetry; apply orb_false_intro; apply Z.ltb_ge; lia).
    cbv zeta in Hfst. unfold ret in Hfst at 1.
    match type of Hfst with
    | fst (sim_loop _ _ _ _ ?ts ?st _) = _ =>
        pose proof (sim_loop_entered p ts st O) as Hge;
        assert (Hts : ts <> []) by
          (unfold range; intros Hnil; apply (f_equal (@length nat)) in Hnil;
           rewrite length_seq in Hnil; simpl in Hnil; lia);
        destruct ts; [congruence|]
    end.
    rewrite Hfst in Hge. simpl in Hge. lia.
  - intros Hc. now rewrite Hquiet.
Qed.

End SimulationFacts.

Lemma simulate_without_validation_witness :
  simulate unit silent_code first_code stepless_params tt
  = (O, init unit stepless_params tt).
Proof.
  apply (simulate_without_validation unit silent_code first_code stepless_params tt).
  right. simpl. lia.
Defined.

(** C2 fails as stated.  With an even [N] and one time step the run enters
    (and completes) a simulation step; with [num_steps = 0] it raises
    nothing at all; both configurations are invalid. *)
Lemma configuration_error_counterexample :
  (invalid_configuration even_params /\
   fst (simulate unit silent_code first_code even_params tt) = 1%nat /\
   simulate unit silent_code first_code even_params tt
   <> (O, raise ConfigurationError)) /\
  (invalid_configuration stepless_params /\
   exists st, simulate unit silent_code first_code stepless_params tt = (O, ret st)).
Proof.
  split; split.
  - left. reflexivity.
  - split; [reflexivity|]. cbv. discriminate.
  - right. right. right. right. simpl. lia.
  - eexists. reflexivity.
Qed.

(** ** Covariance matrix *)

Lemma dot_comm u v : dot u v = dot v u.
Proof.
  revert v. induction u as [|y u IH]; intros [|w v]; simpl; try reflexivity.
  rewrite IH. ring.
Qed.

Lemma dot_quad {X : Type} (f g : X -> R) (l : list X) (c d : R) :
  0 <= c * c * dot (map f l) (map f l) + c * d * dot (map f l) (map g l)
       + d * c * dot (map g l) (map f l) + d * d * dot (map g l) (map g l).
Proof.
  induction l as [|y l IH]; simpl.
  - lra.
  - pose proof (Rle_0_sqr (c * f y + d * g y)) as Hsq. unfold Rsqr in Hsq. nra.
Qed.

Lemma cov_symmetric data : m01 (cov data) = m10 (cov data).
Proof. unfold cov. simpl. now rewrite dot_comm. Qed.

Lemma cov_quad_nonneg data z :
  (2 <= length data)%nat -> 0 <= quad (cov data) z.
Proof.
  intros Hn. destruct z as [c d].
  assert (Hpos : 0 < INR (length data) - 1)
    by (apply le_INR in Hn; simpl in Hn; lra).
  assert (Hfact : 0 < 1 / (INR (length data) - 1))
    by (apply Rdiv_lt_0_compat; lra).
  unfold quad, dot2, mulv, cov. simpl. rewrite !map_map.
  destruct (Rle_dec (INR (length data) - 1) 0) as [Hle|_]; [lra|].
  set (f := fun pt : R * R => fst pt - np.mean (map fst data)).
  set (g := fun pt : R * R => snd pt - np.mean (map snd data)).
  pose proof (dot_quad f g data c d) as Hq.
  set (k := 1 / (INR (length data) - 1)) in *.
  replace (c * (dot (map f data) (map f data) * k * c + dot (map f data) (map g data) * k * d)
           + d * (dot (map g data) (map f data) * k * c + dot (map g data) (map g data) * k * d))
    with (k * (c * c * dot (map f data) (map f data) + c * d * dot (map f data) (map g data)
               + d * c * dot (map g data) (map f data) + d * d * dot (map g data) (map g data)))
    by ring.
  apply Rmult_le_pos; lra.
Qed.

(** ** Consequences of the contract of [eigh] *)

Section EighFacts.

Variable m : mat2.
Variable e : eigh_result.
Hypothesis He : eigh_spec m e.

Lemma eigh_value0_quad :
  fst (eigenvalues e) = quad m (column 0 (eigenvectors e)).
Proof.
  destruct He as [_ H0 _ U0 _ _]. unfold quad. rewrite H0.
  unfold dot2, scale in *. simpl in *. rewrite <- (Rmult_1_r (fst (eigenvalues e))) at 1.
  rewrite <- U0. ring.
Qed.

Lemma eigh_value1_quad :
  snd (eigenvalues e) = quad m (column 1 (eigenvectors e)).
Proof.
  destruct He as [_ _ H1 _ U1 _]. unfold quad. rewrite H1.
  unfold dot2, scale in *. simpl in *. rewrite <- (Rmult_1_r (snd (eigenvalues e))) at 1.
  rewrite <- U1. ring.
Qed.

Lemma eigh_column0_not_dominant :
  fst (eigenvalues e) < snd (eigenvalues e) ->
  ~ is_eigenvector m (snd (eigenvalues e)) (column 0 (eigenvectors e)).
Proof.
  intros Hlt [_ Hdom]. destruct He as [_ H0 _ U0 _ _].
  rewrite H0 in Hdom. unfold scale, dot2 in *. simpl in *.
  injection Hdom as Hx Hy.
  set (l0 := fst (eigenvalues e)) in *. set (l1 := snd (eigenvalues e)) in *.
  set (p := m00 (eigenvectors e)) in *. set (q := m10 (eigenvectors e)) in *.
  assert (Hp : (l1 - l0) * p = 0) by lra.
  assert (Hq : (l1 - l0) * q = 0) by lra.
  apply Rmult_integral in Hp, Hq.
  destruct Hp as [Hp|Hp]; [lra|]. destruct Hq as [Hq|Hq]; [lra|].
  rewrite Hp, Hq in U0. lra.
Qed.

(** For a symmetric matrix every eigenvalue is one of the two returned. *)
Lemma eigh_complete mu z :
  m01 m = m10 m ->
  is_eigenvector m mu z ->
  mu = fst (eigenvalues e) \/ mu = snd (eigenvalues e).
Proof.
  intros Hsym [Hz Hmu].
  destruct He as [_ H0 H1 U0 U1 Hor].
  destruct z as [z1 z2].
  destruct (eigenvalues e) as [l0 l1].
  destruct (eigenvectors e) as [p r q s].
  destruct m as [ma mb mc md].
  unfold mulv, scale, dot2, column in *. simpl in *. subst mc.
  injection H0 as H0x H0y. injection H1 as H1x H1y. injection Hmu as Hmx Hmy.
  assert (Hdet : (p * s - q * r) * (p * s - q * r) = 1).
  { replace ((p * s - q * r) * (p * s - q * r))
      with ((p * p + q * q) * (r * r + s * s) - (p * r + q * s) * (p * r + q * s))
      by ring.
    rewrite U0, U1, Hor. ring. }
  assert (Hc0 : (mu - l0) * (z1 * p + z2 * q) = 0).
  { replace ((mu - l0) * (z1 * p + z2 * q))
      with (p * (mu * z1) + q * (mu * z2) - z1 * (l0 * p) - z2 * (l0 * q)) by ring.
    rewrite <- Hmx, <- Hmy, <- H0x, <- H0y. ring. }
  assert (Hc1 : (mu - l1) * (z1 * r + z2 * s) = 0).
  { replace ((mu - l1) * (z1 * r + z2 * s))
      with (r * (mu * z1) + s * (mu * z2) - z1 * (l1 * r) - z2 * (l1 * s)) by ring.
    rewrite <- Hmx, <- Hmy, <- H1x, <- H1y. ring. }
  apply Rmult_integral in Hc0. destruct Hc0 as [Hc0|Hc0]; [left; lra|].
  apply Rmult_integral in Hc1. destruct Hc1 as [Hc1|Hc1]; [right; lra|].
  exfalso. apply Hz.
  assert (Hz1 : z1 * (p * s - q * r) = 0)
    by (replace (z1 * (p * s - q * r))
          with (s * (z1 * p + z2 * q) - q * (z1 * r + z2 * s)) by ring;
        rewrite Hc0, Hc1; ring).
  assert (Hz2 : z2 * (p * s - q * r) = 0)
    by (replace (z2 * (p * s - q * r))
          with (p * (z1 * r + z2 * s) - r * (z1 * p + z2 * q)) by ring;
        rewrite Hc0, Hc1; ring).
  assert (Hd : p * s - q * r <> 0) by (intros Hd; rewrite Hd in Hdet; lra).
  apply Rmult_integral in Hz1, Hz2.
  destruct Hz1 as [->|]; [|contradiction].
  destruct Hz2 as [->|]; [|contradiction].
  reflexivity.
Qed.

Lemma eigh_least mu z :
  m01 m = m10 m ->
  is_eigenvector m mu z ->
  fst (eigenvalues e) <= mu.
Proof.
  intros Hsym Hz. pose proof (eigh_ascending _ _ He) as Hasc.
  destruct (eigh_complete mu z Hsym Hz) as [->| ->]; lra.
Qed.

End EighFacts.

(** ** Ellipse fit *)

Lemma fit_ellipse_returns eigh u v :
  length u = length v ->
  fit_ellipse eigh u v
  = ret {| xy := mean_axis0 (combine u v);
           width := 4 * sqrt (fst (eigenvalues (eigh (cov (combine u v)))));
           height := 4 * sqrt (snd (eigenvalues (eigh (cov (combine u v)))));
           angle := angle_of (eigh (cov (combine u v))) |}.
Proof.
  intros Hlen. unfold fit_ellipse, data_points_of.
  rewrite Hlen, Nat.eqb_refl. reflexivity.
Qed.

Lemma flat_cov_eq : cov (combine flat_u flat_v) = flat_cov.
Proof.
  unfold cov, flat_cov, np.mean, np.sum. simpl.
  destruct (Rle_dec (1 + 1 - 1) 0) as [Hle|_]; [lra|].
  f_equal; field.
Qed.

Lemma flat_eigh_spec : eigh_spec flat_cov flat_eigh.
Proof.
  constructor; unfold mulv, scale, dot2; simpl; try f_equal; lra.
Qed.

Lemma flat_eigh_spec_cov :
  eigh_spec (cov (combine flat_u flat_v))
            ((fun _ => flat_eigh) (cov (combine flat_u flat_v))).
Proof. rewrite flat_cov_eq. exact flat_eigh_spec. Qed.

(** In exact arithmetic, and for a decomposition that meets the contract
    of [eigh]: for two series of equal length at least 2, the sample
    covariance matrix is symmetric and positive semidefinite, both
    eigenvalues are non-negative, and width and height are the non-negative
    numbers [4 * sqrt(eigenvalue)], whose quarter squares give the
    eigenvalues back.  What a floating-point [eigh] returns for a singular
    matrix, and whether [np.sqrt] then yields a number, is outside this
    development. *)
Theorem ellipse_axes_nonnegative (eigh : mat2 -> eigh_result) (u v : list R) :
  length u = length v -> (2 <= length u)%nat ->
  eigh_spec (cov (combine u v)) (eigh (cov (combine u v))) ->
  exists el,
    fit_ellipse eigh u v = ret el /\
    let cov_matrix := cov (combine u v) in
    let e := eigh cov_matrix in
    m01 cov_matrix = m10 cov_matrix /\
    (forall z, 0 <= quad cov_matrix z) /\
    0 <= fst (eigenvalues e) /\ 0 <= snd (eigenvalues e) /\
    width el = 4 * sqrt (fst (eigenvalues e)) /\
    height el = 4 * sqrt (snd (eigenvalues e)) /\
    0 <= width el /\ 0 <= height el /\
    (width el / 4) * (width el / 4) = fst (eigenvalues e) /\
    (height el / 4) * (height el / 4) = snd (eigenvalues e).
Proof.
  intros Hlen Hn He.
  assert (Hdata : (2 <= length (combine u v))%nat)
    by (rewrite length_combine, <- Hlen, Nat.min_id; exact Hn).
  eexists. split; [apply fit_ellipse_returns; exact Hlen|].
  cbv zeta. simpl.
  set (cov_matrix := cov (combine u v)) in *.
  assert (H0 : 0 <= fst (eigenvalues (eigh cov_matrix)))
    by (rewrite (eigh_value0_quad _ _ He); now apply cov_quad_nonneg).
  assert (H1 : 0 <= snd (eigenvalues (eigh cov_matrix)))
    by (rewrite (eigh_value1_quad _ _ He); now apply cov_quad_nonneg).
  pose proof (sqrt_pos (fst (eigenvalues (eigh cov_matrix)))) as S0.
  pose proof (sqrt_pos (snd (eigenvalues (eigh cov_matrix)))) as S1.
  pose proof (sqrt_sqrt _ H0) as Q0. pose proof (sqrt_sqrt _ H1) as Q1.
  split; [apply cov_symmetric|].
  split; [intros z; now apply cov_quad_nonneg|].
  split; [exact H0|]. split; [exact H1|].
  split; [reflexivity|]. split; [reflexivity|].
  split; [lra|]. split; [lra|].
  split.
  - rewrite <- Q0 at 3. field.
  - rewrite <- Q1 at 3. field.
Qed.

Lemma ellipse_axes_nonnegative_witness :
  exists el,
    fit_ellipse (fun _ => flat_eigh) flat_u flat_v = ret el /\
    0 <= width el /\ 0 <= height el.
Proof.
  destruct (ellipse_axes_nonnegative (fun _ => flat_eigh) flat_u flat_v)
    as [el (Hfit & _ & _ & _ & _ & _ & _ & Hw & Hh & _)].
  - reflexivity.
  - simpl. lia.
  - exact flat_eigh_spec_cov.
  - exists el. repeat split; assumption.
Defined.

Lemma arctan2_east x0 : 0 < x0 -> arctan2 0 x0 = 0.
Proof.
  intros Hx. unfold arctan2. destruct (Rlt_dec 0 x0); [|contradiction].
  replace (0 / x0) with 0 by (unfold Rdiv; ring). apply atan_0.
Qed.

Lemma arctan2_west x0 : x0 < 0 -> arctan2 0 x0 = PI.
Proof.
  intros Hx. unfold arctan2.
  destruct (Rlt_dec 0 x0); [lra|]. destruct (Rlt_dec x0 0); [|contradiction].
  destruct (Rle_dec 0 0); [|lra].
  replace (0 / x0) with 0 by (unfold Rdiv; ring). rewrite atan_0. ring.
Qed.

Lemma arctan2_north y : 0 < y -> arctan2 y 0 = PI / 2.
Proof.
  intros Hy. unfold arctan2.
  destruct (Rlt_dec 0 0); [lra|]. destruct (Rlt_dec 0 y); [reflexivity|contradiction].
Qed.

Lemma arctan2_south y : y < 0 -> arctan2 y 0 = - (PI / 2).
Proof.
  intros Hy. unfold arctan2.
  destruct (Rlt_dec 0 0); [lra|]. destruct (Rlt_dec 0 y); [lra|].
  destruct (Rlt_dec y 0); [reflexivity|contradiction].
Qed.

Lemma degrees_PI_scaled k : degrees (k * PI) = k * 180.
Proof. unfold degrees. field. apply PI_neq0. Qed.

Lemma unit_is_nonzero (w : R * R) : dot2 w w = 1 -> w <> (0, 0).
Proof. intros Hu ->. unfold dot2 in Hu. simpl in Hu. lra. Qed.

(** C1, as the script has it: the angle is the [atan2], in degrees, of the
    components of column 0 of the eigenvector matrix.  With ascending
    eigenvalues that column is a unit eigenvector of the smallest eigenvalue
    of the covariance matrix, the one whose square root gives the width; when
    the eigenvalues differ it is not an eigenvector of the largest. *)
Theorem angle_from_first_eigenvector (eigh : mat2 -> eigh_result) (u v : list R) :
  length u = length v ->
  eigh_spec (cov (combine u v)) (eigh (cov (combine u v))) ->
  exists el,
    fit_ellipse eigh u v = ret el /\
    let cov_matrix := cov (combine u v) in
    let e := eigh cov_matrix in
    let w := column 0 (eigenvectors e) in
    angle el = degrees (arctan2 (snd w) (fst w)) /\
    is_eigenvector cov_matrix (fst (eigenvalues e)) w /\
    dot2 w w = 1 /\
    (forall mu z, is_eigenvector cov_matrix mu z -> fst (eigenvalues e) <= mu) /\
    width el = 4 * sqrt (fst (eigenvalues e)) /\
    (fst (eigenvalues e) < snd (eigenvalues e) ->
     ~ is_eigenvector cov_matrix (snd (eigenvalues e)) w).
Proof.
  intros Hlen He.
  eexists. split; [apply fit_ellipse_returns; exact Hlen|].
  cbv zeta. simpl.
  split; [reflexivity|].
  split.
  { split; [apply unit_is_nonzero; apply (eigh_unit0 _ _ He)|apply (eigh_vec0 _ _ He)]. }
  split; [apply (eigh_unit0 _ _ He)|].
  split.
  { intros mu z Hz. apply (eigh_least _ _ He mu z); [apply cov_symmetric|exact Hz]. }
  split; [reflexivity|].
  apply (eigh_column0_not_dominant _ _ He).
Qed.

Lemma angle_from_first_eigenvector_witness :
  exists el,
    fit_ellipse (fun _ => flat_eigh) flat_u flat_v = ret el /\
    angle el = degrees (arctan2 1 0).
Proof.
  destruct (angle_from_first_eigenvector (fun _ => flat_eigh) flat_u flat_v)
    as [el (Hfit & Hangle & _)].
  - reflexivity.
  - exact flat_eigh_spec_cov.
  - exists el. split; [exact Hfit | exact Hangle].
Defined.

Lemma flat_eigh_forced (e : eigh_result) :
  eigh_spec flat_cov e ->
  eigenvalues e = (0, 2) /\
  m00 (eigenvectors e) = 0 /\
  (m10 (eigenvectors e) = 1 \/ m10 (eigenvectors e) = -1).
Proof.
  intros He.
  assert (Hsym : m01 flat_cov = m10 flat_cov) by reflexivity.
  assert (E2 : is_eigenvector flat_cov 2 (1, 0)).
  { split; [intros H; injection H; lra|].
    unfold mulv, scale; simpl; f_equal; ring. }
  assert (E0 : is_eigenvector flat_cov 0 (0, 1)).
  { split; [intros H; injection H; lra|].
    unfold mulv, scale; simpl; f_equal; ring. }
  pose proof (eigh_complete _ _ He _ _ Hsym E2) as H2.
  pose proof (eigh_complete _ _ He _ _ Hsym E0) as H0.
  destruct He as [Hasc V0 _ U0 _ _].
  destruct (eigenvalues e) as [l0 l1]. destruct (eigenvectors e) as [p r q s].
  unfold mulv, scale, dot2, column in *. simpl in *.
  assert (Hl0 : l0 = 0) by (destruct H2, H0; lra).
  assert (Hl1 : l1 = 2) by (destruct H2, H0; lra).
  subst l0 l1. injection V0 as Vx _.
  assert (Hp : p = 0) by lra. subst p.
  split; [reflexivity|]. split; [reflexivity|].
  assert (Hq : (q - 1) * (q + 1) = 0) by lra.
  apply Rmult_integral in Hq. destruct Hq; [left|right]; lra.
Qed.

(** C1 fails as stated.  For the series [0, 2] and [0, 0] the covariance
    matrix has the distinct eigenvalues 0 and 2; whatever admissible
    decomposition [eigh] returns, the angle of the fit is 90 or -90 degrees,
    while [atan2] of any eigenvector of the largest eigenvalue gives 0 or 180
    degrees. *)
Lemma dominant_angle_counterexample :
  (exists e, eigh_spec (cov (combine flat_u flat_v)) e) /\
  (forall eigh : mat2 -> eigh_result,
     eigh_spec (cov (combine flat_u flat_v)) (eigh (cov (combine flat_u flat_v))) ->
     exists el,
       fit_ellipse eigh flat_u flat_v = ret el /\
       fst (eigenvalues (eigh (cov (combine flat_u flat_v))))
       < snd (eigenvalues (eigh (cov (combine flat_u flat_v)))) /\
       (angle el = 90 \/ angle el = -90) /\
       forall z,
         is_eigenvector (cov (combine flat_u flat_v))
           (snd (eigenvalues (eigh (cov (combine flat_u flat_v))))) z ->
         (degrees (arctan2 (snd z) (fst z)) = 0 \/
          degrees (arctan2 (snd z) (fst z)) = 180) /\
         angle el <> degrees (arctan2 (snd z) (fst z))).
Proof.
  split.
  { exists flat_eigh. rewrite flat_cov_eq. exact flat_eigh_spec. }
  intros eigh He.
  pose proof (fit_ellipse_returns eigh flat_u flat_v eq_refl) as Hfit.
  rewrite flat_cov_eq in Hfit, He |- *.
  eexists. split; [exact Hfit|].
  cbn [angle].
  destruct (flat_eigh_forced _ He) as (Hval & Hp & Hq).
  rewrite Hval. cbn [fst snd].
  assert (Hangle : angle_of (eigh flat_cov) = 90 \/ angle_of (eigh flat_cov) = -90).
  { unfold angle_of, column. simpl. rewrite Hp.
    destruct Hq as [-> | ->].
    - left. rewrite arctan2_north by lra.
      replace (PI / 2) with (/ 2 * PI) by field.
      rewrite degrees_PI_scaled. field.
    - right. rewrite arctan2_south by lra.
      replace (- (PI / 2)) with (- / 2 * PI) by field.
      rewrite degrees_PI_scaled. field. }
  split; [lra|]. split; [exact Hangle|].
  intros [z1 z2] [Hz Heq]. unfold mulv, scale in Heq. simpl in Heq.
  injection Heq as _ Hz2.
  assert (z2 = 0) by lra. subst z2. simpl.
  assert (Hz1 : z1 <> 0) by (intros ->; apply Hz; reflexivity).
  assert (Hdom : degrees (arctan2 0 z1) = 0 \/ degrees (arctan2 0 z1) = 180).
  { destruct (Rtotal_order z1 0) as [Hneg | [H0 | Hpos]]; [|contradiction|].
    - right. rewrite arctan2_west by exact Hneg.
      replace PI with (1 * PI) at 1 by ring. rewrite degrees_PI_scaled. ring.
    - left. rewrite arctan2_east by exact Hpos.
      replace 0 with (0 * PI) at 1 by ring. rewrite degrees_PI_scaled. ring. }
  split; [exact Hdom|].
  destruct Hangle as [-> | ->], Hdom as [-> | ->]; lra.
Qed.

(** ** The contract of [eigh] can always be met *)

Lemma eigh_closed_spec (m : mat2) :
  m01 m = m10 m -> eigh_spec m (eigh_closed m).
Proof.
  intros Hsym. destruct m as [al be ga de]. simpl in Hsym. subst ga.
  unfold eigh_closed. simpl.
  destruct (Req_dec_T be 0) as [Hb|Hb].
  - subst be. destruct (Rle_dec al de) as [Hle|Hgt];
      constructor; unfold mulv, scale, dot2; simpl; try f_equal; lra.
  - set (h := (al + de) / 2).
    set (rr := (al - de) / 2 * ((al - de) / 2) + be * be).
    assert (Hh : 2 * h = al + de) by (unfold h; field).
    assert (Hrr4 : 4 * rr = (al - de) * (al - de) + 4 * (be * be)) by (unfold rr; field).
    clearbody h rr.
    assert (Hbb : 0 < be * be) by nra.
    assert (Hrr : 0 <= rr)
      by (pose proof (Rle_0_sqr (al - de)) as Hs; unfold Rsqr in Hs; lra).
    pose proof (sqrt_pos rr) as Hr0. pose proof (sqrt_sqrt rr Hrr) as Hr2.
    set (r := sqrt rr) in *. clearbody r.
    assert (Hde : de = 2 * h - al) by lra. subst de. clear Hh.
    assert (Hbe : be * be = r * r - (al - h) * (al - h)) by (rewrite Hr2; lra).
    clear Hrr4 Hrr Hr2. clear rr.
    set (l0 := h - r). set (l1 := h + r).
    set (q0 := be * be + (l0 - al) * (l0 - al)).
    set (q1 := be * be + (l1 - al) * (l1 - al)).
    assert (Hq0 : 0 < q0)
      by (unfold q0; pose proof (Rle_0_sqr (l0 - al)) as Hs; unfold Rsqr in Hs; lra).
    assert (Hq1 : 0 < q1)
      by (unfold q1; pose proof (Rle_0_sqr (l1 - al)) as Hs; unfold Rsqr in Hs; lra).
    pose proof (sqrt_lt_R0 q0 Hq0) as Hn0. pose proof (sqrt_lt_R0 q1 Hq1) as Hn1.
    pose proof (sqrt_sqrt q0 (Rlt_le _ _ Hq0)) as Hn0sq.
    pose proof (sqrt_sqrt q1 (Rlt_le _ _ Hq1)) as Hn1sq.
    set (n0 := sqrt q0) in *. set (n1 := sqrt q1) in *.
    assert (Hchar0 : be * be + (2 * h - al) * (l0 - al) = l0 * (l0 - al))
      by (unfold l0; rewrite Hbe; ring).
    assert (Hchar1 : be * be + (2 * h - al) * (l1 - al) = l1 * (l1 - al))
      by (unfold l1; rewrite Hbe; ring).
    assert (Horth : be * be + (l0 - al) * (l1 - al) = 0)
      by (unfold l0, l1; rewrite Hbe; ring).
    constructor; unfold mulv, scale, dot2, column; simpl.
    + unfold l0, l1. lra.
    + f_equal.
      * field. lra.
      * replace (be * (be / n0) + (2 * h - al) * ((l0 - al) / n0))
          with ((be * be + (2 * h - al) * (l0 - al)) / n0) by (field; lra).
        rewrite Hchar0. field. lra.
    + f_equal.
      * field. lra.
      * replace (be * (be / n1) + (2 * h - al) * ((l1 - al) / n1))
          with ((be * be + (2 * h - al) * (l1 - al)) / n1) by (field; lra).
        rewrite Hchar1. field. lra.
    + replace (be / n0 * (be / n0) + (l0 - al) / n0 * ((l0 - al) / n0))
        with (q0 / (n0 * n0)) by (unfold q0; field; lra).
      rewrite Hn0sq. field. lra.
    + replace (be / n1 * (be / n1) + (l1 - al) / n1 * ((l1 - al) / n1))
        with (q1 / (n1 * n1)) by (unfold q1; field; lra).
      rewrite Hn1sq. field. lra.
    + replace (be / n0 * (be / n1) + (l0 - al) / n0 * ((l1 - al) / n1))
        with ((be * be + (l0 - al) * (l1 - al)) / (n0 * n1)) by (field; lra).
      rewrite Horth. field. lra.
Qed.

(** Every pair of series has an admissible decomposition of its covariance
    matrix, so the hypothesis on [eigh] in the statements about the fit
    excludes no input. *)
Lemma cov_has_eigh (u v : list R) :
  eigh_spec (cov (combine u v)) (eigh_closed (cov (combine u v))).
Proof. apply eigh_closed_spec, cov_symmetric. Qed.

(** ** The estimator on small inputs *)

Example firing_rate_two_bins :
  firing_rate [[1; 0; 1; 1; 0]] 2 = ret [[(1 + (0 + 0)) / 2; (1 + (1 + 0)) / 2]].
Proof. reflexivity. Qed.

Example firing_rate_short_row : firing_rate [[1; 0; 1; 1; 0]] 6 = ret [[]].
Proof. reflexivity. Qed.

Example firing_rate_zero_bin : firing_rate [[1; 0; 1; 1; 0]] 0 = raise ZeroDivisionError.
Proof. reflexivity. Qed.

Example firing_rate_negative_bin : firing_rate [[1; 0; 1; 1; 0]] (-2) = raise ValueError.
Proof. reflexivity. Qed.

Example firing_rate_no_neuron : firing_rate [] 0 = ret [].
Proof. reflexivity. Qed.

(** * Further properties of the script *)

(** ** Outcome of the estimator on every input *)

(** X1: the estimator returns the empty list for a spike train without
    neurons, whatever the bin size; otherwise it raises [ZeroDivisionError]
    for bin size 0, [ValueError] for a negative bin size, and returns the
    binned rows for a positive one. *)
Theorem firing_rate_outcome (spike_train : list (list R)) (bin_size : Z) :
  firing_rate spike_train bin_size
  = match spike_train with
    | [] => ret []
    | _ :: _ =>
        if (bin_size =? 0)%Z then raise ZeroDivisionError
        else if (bin_size <? 0)%Z then raise ValueError
        else ret (map (binned bin_size) spike_train)
    end.
Proof.
  destruct spike_train as [|row rest]; [reflexivity|].
  destruct (Z.eqb_spec bin_size 0) as [Hz|Hz].
  - unfold firing_rate. simpl. unfold firing_rate_row.
    rewrite Hz. reflexivity.
  - destruct (Z.ltb_spec bin_size 0) as [Hneg|Hpos].
    + unfold firing_rate. simpl. unfold firing_rate_row, np.reshape.
      replace (bin_size =? 0)%Z with false by (symmetry; now apply Z.eqb_neq).
      replace (bin_size <? 0)%Z with true by (symmetry; now apply Z.ltb_lt).
      rewrite orb_true_r. reflexivity.
    + apply firing_rate_binned. lia.
Qed.

(** ** Rates stay within the range of the samples *)

Lemma sum_bounds lo hi l :
  Forall (fun s => lo <= s <= hi) l ->
  INR (length l) * lo <= np.sum l <= INR (length l) * hi.
Proof.
  induction 1 as [|y l [Hlo Hhi] _ IH].
  - unfold np.sum. simpl. lra.
  - change (np.sum (y :: l)) with (y + np.sum l).
    change (length (y :: l)) with (S (length l)). rewrite S_INR. lra.
Qed.

Lemma chunks_full (P : R -> Prop) rows cols l :
  (rows * cols <= length l)%nat -> Forall P l ->
  Forall (fun ch => length ch = cols /\ Forall P ch) (np.chunks rows cols l).
Proof.
  revert l. induction rows as [|r IH]; intros l Hlen HP; simpl; constructor.
  - split.
    + rewrite length_firstn. simpl in Hlen. lia.
    + rewrite <- (firstn_skipn cols l) in HP. apply Forall_app in HP. tauto.
  - apply IH.
    + rewrite length_skipn. simpl in Hlen. lia.
    + rewrite <- (firstn_skipn cols l) in HP. apply Forall_app in HP. tauto.
Qed.

Lemma binned_bounded bin_size lo hi row :
  (1 <= bin_size)%Z ->
  Forall (fun s => lo <= s <= hi) row ->
  Forall (fun r => lo <= r <= hi) (binned bin_size row).
Proof.
  intros Hb Hrow. unfold binned, np.sum_axis1. rewrite map_map.
  apply Forall_map.
  pose proof (chunks_full _ _ _ _ (bins_fit bin_size row Hb) Hrow) as Hch.
  eapply Forall_impl; [|exact Hch].
  intros ch [Hlen Hin]. cbv beta.
  pose proof (sum_bounds lo hi ch Hin) as Hs. rewrite Hlen in Hs.
  replace (INR (Z.to_nat bin_size)) with (IZR bin_size) in Hs
    by (rewrite INR_IZR_INZ, Z2Nat.id by lia; reflexivity).
  assert (Hpos : 0 < IZR bin_size) by (apply IZR_lt; lia).
  split.
  - apply Rmult_le_reg_r with (IZR bin_size); [exact Hpos|].
    unfold Rdiv. rewrite Rmult_assoc, Rinv_l by lra. lra.
  - apply Rmult_le_reg_r with (IZR bin_size); [exact Hpos|].
    unfold Rdiv. rewrite Rmult_assoc, Rinv_l by lra. lra.
Qed.

(** X2: for a positive bin size, every rate lies between any two bounds
    that enclose all samples; rates of a train of 0/1 spikes lie in [0, 1]. *)
Theorem firing_rate_bounded (spike_train : list (list R)) (bin_size : Z) (lo hi : R) :
  (1 <= bin_size)%Z ->
  Forall (Forall (fun s => lo <= s <= hi)) spike_train ->
  exists rates,
    firing_rate spike_train bin_size = ret rates /\
    Forall (Forall (fun r => lo <= r <= hi)) rates.
Proof.
  intros Hb HS. exists (map (binned bin_size) spike_train). split.
  - now apply firing_rate_binned.
  - apply Forall_map. eapply Forall_impl; [|exact HS].
    intros row Hrow. now apply binned_bounded.
Qed.

Lemma firing_rate_bounded_witness :
  exists rates,
    firing_rate [[1; 0; 1; 1; 0]] 2 = ret rates /\
    Forall (Forall (fun r => 0 <= r <= 1)) rates.
Proof.
  apply firing_rate_bounded.
  - lia.
  - repeat constructor; lra.
Defined.

(** ** Histogram and total activation against the rate series *)

Lemma binned_head bin_size row :
  (1 <= bin_size)%Z -> (bin_size <= Z.of_nat (length row))%Z ->
  nth 0 (binned bin_size row) 0
  = np.sum (slice_0 bin_size row) / IZR bin_size.
Proof.
  intros Hb Hlen. unfold binned, bins_of, slice_0.
  replace (bin_size <? 0)%Z with false by (symmetry; apply Z.ltb_ge; lia).
  assert (Hq : (1 <= Z.of_nat (length row) / bin_size)%Z)
    by (apply Z.div_le_lower_bound; lia).
  destruct (Z.to_nat (Z.of_nat (length row) / bin_size)) as [|q] eqn:E; [lia|].
  reflexivity.
Qed.

(** X4: for [1 <= histogram_steps <= T] the histogram of a matrix is the
    first entry of each rate sequence obtained with bin size
    [histogram_steps]. *)
Theorem histogram_is_first_bin (m : list (list R)) (histogram_steps : Z) :
  (1 <= histogram_steps)%Z ->
  Forall (fun row => (histogram_steps <= Z.of_nat (length row))%Z) m ->
  exists rates,
    firing_rate m histogram_steps = ret rates /\
    histogram m histogram_steps = map (fun r => nth 0 r 0) rates.
Proof.
  intros Hh Hrows. exists (map (binned histogram_steps) m). split.
  - now apply firing_rate_binned.
  - unfold histogram, np.sum_axis1. rewrite !map_map.
    apply map_ext_Forall. eapply Forall_impl; [|exact Hrows].
    intros row Hrow. cbv beta. symmetry. now apply binned_head.
Qed.

Lemma histogram_is_first_bin_witness :
  exists rates,
    firing_rate [[1; 0; 1; 1; 0]; [0; 0; 1; 0; 1]] 2 = ret rates /\
    histogram [[1; 0; 1; 1; 0]; [0; 0; 1; 0; 1]] 2 = map (fun r => nth 0 r 0) rates.
Proof.
  apply histogram_is_first_bin.
  - lia.
  - repeat constructor; simpl; lia.
Defined.

Lemma activation_cons row m : activation (row :: m) = np.sum row + activation m.
Proof. reflexivity. Qed.

(** X5: when the bin size is positive and divides the number of samples of
    every row, the bin size times the sum of all rates is the total
    activation [np.sum] of the spike train. *)
Theorem firing_rate_total_activation (spike_train : list (list R)) (bin_size : Z) :
  (1 <= bin_size)%Z ->
  Forall (fun row => (Z.of_nat (length row) mod bin_size = 0)%Z) spike_train ->
  exists rates,
    firing_rate spike_train bin_size = ret rates /\
    IZR bin_size * activation rates = activation spike_train.
Proof.
  intros Hb Hdiv. exists (map (binned bin_size) spike_train). split.
  - now apply firing_rate_binned.
  - induction Hdiv as [|row rest Hrow _ IH].
    + unfold activation, np.sum. simpl. ring.
    + simpl map. rewrite !activation_cons, Rmult_plus_distr_l, IH.
      rewrite binned_total by exact Hb. f_equal. f_equal.
      apply firstn_all2. unfold bins_of.
      apply Z.div_exact in Hrow; [|lia].
      assert (0 <= Z.of_nat (length row) / bin_size)%Z by (apply Z.div_pos; lia).
      nia.
Qed.

Lemma firing_rate_total_activation_witness :
  exists rates,
    firing_rate [[1; 0; 1; 1]; [0; 0; 1; 0]] 2 = ret rates /\
    2 * activation rates = activation [[1; 0; 1; 1]; [0; 0; 1; 0]].
Proof.
  apply firing_rate_total_activation.
  - lia.
  - repeat constructor.
Defined.

(** ** Column assignment *)

Lemma upd_length t v row : length (upd t v row) = length row.
Proof.
  revert t. induction row as [|y row IH]; intros [|t]; simpl; try reflexivity.
  now rewrite IH.
Qed.

Lemma nth_upd_same t v row :
  (t < length row)%nat -> nth t (upd t v row) 0 = v.
Proof.
  revert t. induction row as [|y row IH]; intros [|t] Ht; simpl in *; try lia.
  - reflexivity.
  - apply IH. lia.
Qed.

Lemma nth_upd_other t t' v row :
  t' <> t -> nth t' (upd t v row) 0 = nth t' row 0.
Proof.
  revert t t'. induction row as [|y row IH]; intros [|t] [|t'] Hne; simpl;
    try reflexivity; try congruence.
  apply IH. congruence.
Qed.

Lemma upd_rows_shape t vs m n T :
  length vs = length m -> shaped n T m -> shaped n T (upd_rows t vs m).
Proof.
  intros Hlen [Hn HT]. subst n. revert vs Hlen.
  induction HT as [|row m Hrow _ IH]; intros [|v vs] Hlen; simpl in *; try lia.
  - split; [reflexivity|constructor].
  - destruct (IH vs ltac:(lia)) as [IH1 IH2]. split.
    + simpl. now rewrite IH1.
    + constructor; [now rewrite upd_length|exact IH2].
Qed.

Lemma map_upd_shape t v m n T : shaped n T m -> shaped n T (map (upd t v) m).
Proof.
  intros [Hn HT]. split.
  - now rewrite length_map.
  - apply Forall_map. eapply Forall_impl; [|exact HT].
    intros row Hrow. cbv beta. now rewrite upd_length.
Qed.

Lemma col_upd_rows_same t vs m :
  length vs = length m -> Forall (fun row => (t < length row)%nat) m ->
  col t (upd_rows t vs m) = vs.
Proof.
  intros Hlen Hm. revert vs Hlen.
  induction Hm as [|row m Hrow _ IH]; intros [|v vs] Hlen; simpl in *; try lia.
  - reflexivity.
  - rewrite nth_upd_same by exact Hrow. f_equal. apply IH. lia.
Qed.

Lemma col_upd_rows_other t t' vs m :
  length vs = length m -> t' <> t ->
  col t' (upd_rows t vs m) = col t' m.
Proof.
  intros Hlen Hne. revert vs Hlen.
  induction m as [|row m IH]; intros [|v vs] Hlen; simpl in *; try lia.
  - reflexivity.
  - rewrite nth_upd_other by exact Hne. f_equal. apply IH. lia.
Qed.

Lemma col_map_upd_other t t' v m :
  t' <> t -> col t' (map (upd t v) m) = col t' m.
Proof.
  intros Hne. unfold col. rewrite map_map. apply map_ext.
  intros row. now apply nth_upd_other.
Qed.

Lemma set_col_shape t v m m' n T :
  shaped n T m -> set_col t v m = ret m' -> shaped n T m'.
Proof.
  intros Hm. unfold set_col.
  destruct (Nat.eqb_spec (length v) (length m)) as [Heq|_].
  - intros [= <-]. now apply upd_rows_shape.
  - destruct (Nat.eqb (length v) 1); [|discriminate].
    intros [= <-]. now apply map_upd_shape.
Qed.

Lemma set_col_other t t' v m m' :
  t' <> t -> set_col t v m = ret m' -> col t' m' = col t' m.
Proof.
  intros Hne. unfold set_col.
  destruct (Nat.eqb_spec (length v) (length m)) as [Heq|_].
  - intros [= <-]. now apply col_upd_rows_other.
  - destruct (Nat.eqb (length v) 1); [|discriminate].
    intros [= <-]. now apply col_map_upd_other.
Qed.

Lemma set_col_read t v m m' n T :
  shaped n T m -> length v = n -> (t < T)%nat ->
  set_col t v m = ret m' -> col t m' = v.
Proof.
  intros [Hn HT] Hv Ht. unfold set_col.
  rewrite Hv, Hn, Nat.eqb_refl. intros [= <-].
  apply col_upd_rows_same; [lia|].
  eapply Forall_impl; [|exact HT]. intros row Hrow. cbv beta in Hrow |- *. lia.
Qed.

(** X6: assigning a vector with one entry per row to a column that exists
    succeeds; reading the column back gives the vector, every other column
    reads as before, and the shape of the matrix is unchanged. *)
Theorem set_col_then_col (t : nat) (v : list R) (m : list (list R)) (n T : nat) :
  shaped n T m -> length v = n -> (t < T)%nat ->
  exists m',
    set_col t v m = ret m' /\
    col t m' = v /\
    (forall t', t' <> t -> col t' m' = col t' m) /\
    shaped n T m'.
Proof.
  intros Hm Hv Ht. pose proof Hm as [Hn HT].
  exists (upd_rows t v m).
  assert (Hset : set_col t v m = ret (upd_rows t v m)).
  { unfold set_col. rewrite Hv, Hn, Nat.eqb_refl. reflexivity. }
  split; [exact Hset|]. split.
  - apply col_upd_rows_same; [lia|].
    eapply Forall_impl; [|exact HT]. intros row Hrow. cbv beta in Hrow |- *. lia.
  - split.
    + intros t' Hne. now apply (set_col_other t t' v m).
    + now apply (set_col_shape t v m _ n T).
Qed.

Lemma set_col_then_col_witness :
  exists m',
    set_col 1 [5; 7] [[1; 2; 3]; [4; 5; 6]] = ret m' /\
    col 1 m' = [5; 7] /\
    (forall t', t' <> 1%nat -> col t' m' = col t' [[1; 2; 3]; [4; 5; 6]]) /\
    shaped 2 3 m'.
Proof.
  apply set_col_then_col.
  - split; [reflexivity|repeat constructor].
  - reflexivity.
  - lia.
Defined.

(** ** Invariants of the simulation loop *)

Lemma zeros_shaped n t m :
  zeros n t = ret m -> shaped (Z.to_nat n) (Z.to_nat t) m.
Proof.
  unfold zeros. destruct ((n <? 0) || (t <? 0))%Z; [discriminate|].
  intros [= <-]. split.
  - apply repeat_length.
  - apply Forall_forall. intros row Hrow. apply repeat_spec in Hrow.
    subst row. apply repeat_length.
Qed.

Section LoopInvariants.

Variable Rng : Type.
Variable create_code : R -> R -> Z -> Rng -> Exc (list R * Rng).
Variable compute : list R -> list R -> Rng -> Exc (list R * Rng).

Lemma init_shaped p g st :
  init Rng p g = ret st ->
  state_shaped (Z.to_nat (N p)) (Z.to_nat (num_steps p)) st.
Proof.
  unfold init. destruct (zeros (N p) (num_steps p)) as [e|z] eqn:E; [discriminate|].
  simpl. intros [= <-]. apply zeros_shaped in E. repeat split; apply E.
Qed.

Lemma sim_step_inv p t st st' :
  sim_step Rng create_code compute p t st = ret st' ->
  exists ra rb rc A1 B1 C1,
    create_code (a p) (a_sig p) (N p) (rng st) = ret ra /\
    set_col t (fst ra) (A st) = ret A1 /\
    create_code (b p) (b_sig p) (N p) (snd ra) = ret rb /\
    set_col t (fst rb) (B st) = ret B1 /\
    compute (col t A1) (col t B1) (snd rb) = ret rc /\
    set_col t (fst rc) (C st) = ret C1 /\
    st' = {| A := A1; B := B1; C := C1; rng := snd rc |}.
Proof.
  unfold sim_step.
  destruct (create_code (a p) (a_sig p) (N p) (rng st)) as [e|ra] eqn:E1;
    [discriminate|].
  simpl. destruct (set_col t (fst ra) (A st)) as [e|A1] eqn:E2; [discriminate|].
  simpl. destruct (create_code (b p) (b_sig p) (N p) (snd ra)) as [e|rb] eqn:E3;
    [discriminate|].
  simpl. destruct (set_col t (fst rb) (B st)) as [e|B1] eqn:E4; [discriminate|].
  simpl. destruct (compute (col t A1) (col t B1) (snd rb)) as [e|rc] eqn:E5;
    [discriminate|].
  simpl. destruct (set_col t (fst rc) (C st)) as [e|C1] eqn:E6; [discriminate|].
  simpl. intros [= <-]. exists ra, rb, rc, A1, B1, C1.
  repeat split; assumption.
Qed.

Lemma sim_step_shaped p t st st' n T :
  state_shaped n T st ->
  sim_step Rng create_code compute p t st = ret st' ->
  state_shaped n T st'.
Proof.
  intros (HA & HB & HC) Hstep.
  destruct (sim_step_inv p t st st' Hstep)
    as (ra & rb & rc & A1 & B1 & C1 & _ & EA & _ & EB & _ & EC & ->).
  repeat split; simpl;
    first [ apply (set_col_shape _ _ _ _ n T HA EA)
          | apply (set_col_shape _ _ _ _ n T HB EB)
          | apply (set_col_shape _ _ _ _ n T HC EC) ].
Qed.

Lemma sim_loop_bound p ts st n :
  (fst (sim_loop Rng create_code compute p ts st n) <= n + length ts)%nat.
Proof.
  revert st n. induction ts as [|t ts IH]; intros st n; simpl.
  - lia.
  - destruct (sim_step Rng create_code compute p t st) as [e|st']; simpl.
    + lia.
    + specialize (IH st' (S n)). lia.
Qed.

Lemma sim_loop_returns p ts st n k st' nn T :
  state_shaped nn T st ->
  sim_loop Rng create_code compute p ts st n = (k, ret st') ->
  k = (n + length ts)%nat /\ state_shaped nn T st'.
Proof.
  revert st n. induction ts as [|t ts IH]; intros st n Hst; simpl.
  - intros [= <- <-]. split; [lia|exact Hst].
  - destruct (sim_step Rng create_code compute p t st) as [e|st1] eqn:E.
    + discriminate.
    + intros Hloop. apply IH in Hloop.
      * destruct Hloop as [-> Hsh]. split; [lia|exact Hsh].
      * now apply (sim_step_shaped p t st).
Qed.

(** X7: the run never enters more than [num_steps] steps.  When it returns
    a state, it has entered exactly [num_steps] steps and [A], [B] and [C]
    still have [N] rows of [num_steps] entries; when it raises before any
    step, the exception is the [ValueError] of a negative dimension. *)
Theorem simulate_invariant (p : params) (g : Rng) :
  (fst (simulate Rng create_code compute p g) <= Z.to_nat (num_steps p))%nat /\
  (forall st,
     snd (simulate Rng create_code compute p g) = ret st ->
     fst (simulate Rng create_code compute p g) = Z.to_nat (num_steps p) /\
     state_shaped (Z.to_nat (N p)) (Z.to_nat (num_steps p)) st) /\
  (forall e,
     simulate Rng create_code compute p g = (O, raise e) ->
     e = ValueError /\ (N p < 0 \/ num_steps p < 0)%Z).
Proof.
  unfold simulate.
  destruct (init Rng p g) as [e0|st0] eqn:E.
  - simpl. split; [lia|]. split; [discriminate|].
    intros e [= <-]. rewrite init_checks_dimensions_only in E.
    destruct ((N p <? 0) || (num_steps p <? 0))%Z eqn:Hneg; [|discriminate].
    split; [unfold raise in E; congruence|].
    apply orb_true_iff in Hneg. destruct Hneg as [H|H]; apply Z.ltb_lt in H; lia.
  - pose proof (init_shaped p g st0 E) as Hsh.
    pose proof (sim_loop_bound p (range (num_steps p)) st0 O) as Hb.
    unfold range in *. rewrite length_seq in Hb.
    split; [exact Hb|]. split.
    + intros st Hst.
      destruct (sim_loop Rng create_code compute p (seq 0 (Z.to_nat (num_steps p))) st0 O)
        as [k r] eqn:El.
      simpl in Hst. subst r.
      apply (sim_loop_returns p _ st0 O k st _ _ Hsh) in El.
      rewrite length_seq in El. simpl. exact El.
    + intros e He.
      pose proof (sim_loop_entered Rng create_code compute p
                    (seq 0 (Z.to_nat (num_steps p))) st0 O) as Hge.
      rewrite He in Hge. simpl in Hge.
      destruct (seq 0 (Z.to_nat (num_steps p))) as [|t ts] eqn:Es; [|lia].
      simpl in He. discriminate.
Qed.

(** X8: with the generator and the combiner taken as functions of the
    values they are handed (in particular, a combiner that does not write
    through the two column views it receives), a completed step calls the
    generator for [A], then the generator for [B] on the stream the first
    call left, then the combiner on the two columns just written and the
    stream the second call left, and keeps the combiner's stream.  Column
    [t] of [A], [B] and [C] then holds the three returned vectors (when they
    have one entry per row), and no other column changes. *)
Theorem sim_step_columns (p : params) (t : nat) (st st' : sim_state Rng) (n T : nat) :
  state_shaped n T st -> (t < T)%nat ->
  sim_step Rng create_code compute p t st = ret st' ->
  exists va vb vc g1 g2,
    create_code (a p) (a_sig p) (N p) (rng st) = ret (va, g1) /\
    create_code (b p) (b_sig p) (N p) g1 = ret (vb, g2) /\
    compute (col t (A st')) (col t (B st')) g2 = ret (vc, rng st') /\
    (length va = n -> col t (A st') = va) /\
    (length vb = n -> col t (B st') = vb) /\
    (length vc = n -> col t (C st') = vc) /\
    (forall t', t' <> t ->
       col t' (A st') = col t' (A st) /\
       col t' (B st') = col t' (B st) /\
       col t' (C st') = col t' (C st)).
Proof.
  intros (HA & HB & HC) Ht Hstep.
  destruct (sim_step_inv p t st st' Hstep)
    as ([va g1] & [vb g2] & [vc g3] & A1 & B1 & C1 & Ea & EA & Eb & EB & Ec & EC & ->).
  simpl in *.
  assert (Hread : forall v m m', shaped n T m -> set_col t v m = ret m' ->
                                 length v = n -> col t m' = v).
  { intros v m m' Hm Hset Hv. now apply (set_col_read t v m m' n T). }
  exists va, vb, vc, g1, g2.
  split; [exact Ea|]. split; [exact Eb|]. split; [exact Ec|].
  split; [now apply (Hread va (A st))|].
  split; [now apply (Hread vb (B st))|].
  split; [now apply (Hread vc (C st))|].
  intros t' Hne. repeat split.
  - now apply (set_col_other t t' va (A st)).
  - now apply (set_col_other t t' vb (B st)).
  - now apply (set_col_other t t' vc (C st)).
Qed.

End LoopInvariants.

Lemma simulate_invariant_witness :
  fst (simulate unit silent_code first_code even_params tt)
  = Z.to_nat (num_steps even_params) /\
  state_shaped (Z.to_nat (N even_params)) (Z.to_nat (num_steps even_params)) even_state.
Proof.
  apply (simulate_invariant unit silent_code first_code even_params tt).
  reflexivity.
Defined.

Lemma sim_step_columns_witness :
  exists va vb vc g1 g2,
    counting_code (a pair_params) (a_sig pair_params) (N pair_params)
      (rng counted_before) = ret (va, g1) /\
    counting_code (b pair_params) (b_sig pair_params) (N pair_params) g1
    = ret (vb, g2) /\
    adding_code (col 1 (A counted_after)) (col 1 (B counted_after)) g2
    = ret (vc, rng counted_after) /\
    (length va = 2%nat -> col 1 (A counted_after) = va) /\
    (length vb = 2%nat -> col 1 (B counted_after) = vb) /\
    (length vc = 2%nat -> col 1 (C counted_after) = vc) /\
    (forall t', t' <> 1%nat ->
       col t' (A counted_after) = col t' (A counted_before) /\
       col t' (B counted_after) = col t' (B counted_before) /\
       col t' (C counted_after) = col t' (C counted_before)).
Proof.
  apply (sim_step_columns nat counting_code adding_code pair_params 1
           counted_before counted_after 2 2).
  - repeat split; repeat constructor.
  - lia.
  - reflexivity.
Defined.

(** ** Errors and shape of the tuning curve *)

Lemma gauss_C_zero : gauss_C 0 = raise ZeroDivisionError.
Proof.
  unfold gauss_C. destruct (Req_dec_T (0 * sqrt (2 * PI)) 0) as [_|H]; [reflexivity|].
  exfalso. apply H. ring.
Qed.

Lemma float_inf_threshold_pos : 0 < float_inf_threshold.
Proof. pose proof float_inf_threshold_ge_4. lra. Qed.

Lemma theoretical_code_array_outcome xs mu sigma :
  theoretical_code_array xs mu sigma
  = if Req_dec_T sigma 0 then raise ZeroDivisionError
    else if Rle_dec float_inf_threshold (sigma ^ 2) then raise OverflowError
    else ret (map (fun xi => gaussian xi mu sigma) xs).
Proof.
  unfold theoretical_code_array.
  destruct (Req_dec_T sigma 0) as [->|Hs].
  - now rewrite gauss_C_zero.
  - rewrite gauss_C_pos by exact Hs. rewrite bind_ret.
    destruct (Rle_dec float_inf_threshold (sigma ^ 2)) as [Hov|Hin].
    + now rewrite py_square_overflow.
    + apply Rnot_le_lt in Hin. rewrite py_square_in_range by exact Hin.
      rewrite bind_ret. f_equal. apply map_ext. intros xi.
      apply gauss_term_closed.
Qed.

Lemma theoretical_code_float_outcome x0 mu sigma :
  theoretical_code_float x0 mu sigma
  = if Req_dec_T sigma 0 then raise ZeroDivisionError
    else if Rle_dec float_inf_threshold (sigma ^ 2) then raise OverflowError
    else if Rle_dec (sigma ^ 2) float_zero_threshold then raise ZeroDivisionError
    else ret (gaussian x0 mu sigma).
Proof.
  unfold theoretical_code_float.
  destruct (Req_dec_T sigma 0) as [->|Hs].
  - now rewrite gauss_C_zero.
  - rewrite gauss_C_pos by exact Hs. rewrite bind_ret.
    destruct (Rle_dec float_inf_threshold (sigma ^ 2)) as [Hov|Hin].
    + now rewrite py_square_overflow.
    + apply Rnot_le_lt in Hin. rewrite py_square_in_range by exact Hin.
      rewrite bind_ret.
      destruct (Rle_dec (sigma ^ 2) float_zero_threshold); [reflexivity|].
      now rewrite gauss_term_closed.
Qed.

(** X9: called on an array, empty or not, the tuning-curve function raises
    [ZeroDivisionError] exactly when the spread is 0 and [OverflowError]
    exactly when the square of the spread is out of the range of doubles.
    Called on a Python float it raises [ZeroDivisionError] also when the
    square of the spread underflows to zero, and [OverflowError] in the
    same case as for an array. *)
Theorem theoretical_code_zero_spread (x0 mu sigma : R) (xs : list R) :
  (theoretical_code_array xs mu sigma = raise ZeroDivisionError <-> sigma = 0) /\
  (theoretical_code_array xs mu sigma = raise OverflowError
   <-> float_inf_threshold <= sigma ^ 2) /\
  (theoretical_code_float x0 mu sigma = raise ZeroDivisionError
   <-> sigma ^ 2 <= float_zero_threshold) /\
  (theoretical_code_float x0 mu sigma = raise OverflowError
   <-> float_inf_threshold <= sigma ^ 2).
Proof.
  pose proof float_inf_threshold_ge_4 as Hinf.
  pose proof float_zero_threshold_small as [Hzero Hsmall].
  rewrite theoretical_code_array_outcome, theoretical_code_float_outcome.
  destruct (Req_dec_T sigma 0) as [->|Hs].
  - replace (0 ^ 2) with 0 by ring.
    repeat split; intros H; try discriminate H; try reflexivity; lra.
  - destruct (Rle_dec float_inf_threshold (sigma ^ 2)) as [Hov|Hin].
    + repeat split; intros H; try discriminate H; try reflexivity;
        try contradiction; try assumption; exfalso; lra.
    + destruct (Rle_dec (sigma ^ 2) float_zero_threshold) as [Hun|Hok];
        repeat split; intros H; try discriminate H; try reflexivity;
        try contradiction; try assumption.
Qed.

Lemma exp_le_mono u v : u <= v -> exp u <= exp v.
Proof.
  intros [Hlt| ->]; [left; now apply exp_increasing | right; reflexivity].
Qed.

Lemma gaussian_pos x0 mu sigma : 0 < sigma -> 0 < gaussian x0 mu sigma.
Proof.
  intros Hs. unfold gaussian. apply Rdiv_lt_0_compat; [apply exp_pos|].
  pose proof sqrt_2PI_pos. nra.
Qed.

Lemma gaussian_antitone x1 x2 mu sigma :
  0 < sigma ->
  (x1 - mu) ^ 2 <= (x2 - mu) ^ 2 ->
  gaussian x2 mu sigma <= gaussian x1 mu sigma.
Proof.
  intros Hs Hd. unfold gaussian.
  assert (Hden : 0 < sigma * sqrt (2 * PI)) by (pose proof sqrt_2PI_pos; nra).
  assert (Hk : 0 < / (2 * sigma ^ 2)) by (apply Rinv_0_lt_compat; nra).
  apply Rmult_le_compat_r; [left; now apply Rinv_0_lt_compat|].
  apply exp_le_mono. unfold Rdiv. nra.
Qed.

(** X10: for a positive spread whose square and twice whose square are
    finite non-zero doubles, the tuning curve is never negative, takes the
    same value at equal distances on both sides of the mean, and does not
    increase with the distance from the mean; its largest value,
    [1 / (sigma sqrt(2 pi))], is taken at the mean. *)
Theorem theoretical_code_bell (mu sigma : R) :
  0 < sigma ->
  float_zero_threshold < sigma ^ 2 ->
  2 * sigma ^ 2 < float_inf_threshold ->
  theoretical_code mu mu sigma = ret (1 / (sigma * sqrt (2 * PI))) /\
  forall x1, exists v1,
    theoretical_code x1 mu sigma = ret v1 /\
    0 <= v1 <= 1 / (sigma * sqrt (2 * PI)) /\
    theoretical_code (mu - (x1 - mu)) mu sigma = ret v1 /\
    forall x2 v2,
      theoretical_code x2 mu sigma = ret v2 ->
      Rabs (x1 - mu) <= Rabs (x2 - mu) -> v2 <= v1.
Proof.
  intros Hs Hlo Hhi.
  assert (Hsq : 0 <= sigma ^ 2) by apply pow2_ge_0.
  assert (Hnz : sigma <> 0) by lra.
  assert (Hr : sigma ^ 2 < float_inf_threshold) by lra.
  assert (Hpeak : gaussian mu mu sigma = 1 / (sigma * sqrt (2 * PI))).
  { unfold gaussian. replace (- (mu - mu) ^ 2 / (2 * sigma ^ 2)) with 0
      by (unfold Rdiv; ring).
    now rewrite exp_0. }
  split.
  { rewrite theoretical_code_in_range by assumption. now rewrite Hpeak. }
  intros x1. exists (gaussian x1 mu sigma).
  split; [now apply theoretical_code_in_range|].
  split.
  { split; [left; now apply gaussian_pos|]. rewrite <- Hpeak.
    apply gaussian_antitone; [exact Hs|].
    replace ((mu - mu) ^ 2) with 0 by ring. apply pow2_ge_0. }
  split.
  { rewrite theoretical_code_in_range by assumption. f_equal. unfold gaussian.
    replace ((mu - (x1 - mu) - mu) ^ 2) with ((x1 - mu) ^ 2) by ring.
    reflexivity. }
  intros x2 v2 Hv2 Habs.
  rewrite theoretical_code_in_range in Hv2 by assumption. injection Hv2 as <-.
  apply gaussian_antitone; [exact Hs|].
  rewrite <- (pow2_abs (x1 - mu)), <- (pow2_abs (x2 - mu)).
  pose proof (Rabs_pos (x1 - mu)). nra.
Qed.

Lemma theoretical_code_bell_witness :
  theoretical_code 0 0 1 = ret (1 / (1 * sqrt (2 * PI))).
Proof.
  pose proof float_zero_threshold_small. pose proof float_inf_threshold_ge_4.
  apply (theoretical_code_bell 0 1).
  - lra.
  - replace (1 ^ 2) with 1 by ring. lra.
  - replace (1 ^ 2) with 1 by ring. lra.
Defined.

(** X11: nothing rejects a negative spread: for a spread other than 0
    whose square and twice whose square are finite non-zero doubles, the
    function returns at the spread of opposite sign the negated value. *)
Theorem theoretical_code_negative_spread (x0 mu sigma : R) :
  sigma <> 0 ->
  float_zero_threshold < sigma ^ 2 ->
  2 * sigma ^ 2 < float_inf_threshold ->
  exists v,
    theoretical_code x0 mu sigma = ret v /\
    theoretical_code x0 mu (- sigma) = ret (- v) /\
    theoretical_code_float x0 mu sigma = ret v /\
    theoretical_code_float x0 mu (- sigma) = ret (- v).
Proof.
  intros Hs Hlo Hhi.
  assert (Hsq : 0 <= sigma ^ 2) by apply pow2_ge_0.
  assert (Hneg : (- sigma) ^ 2 = sigma ^ 2) by ring.
  assert (Hval : gaussian x0 mu (- sigma) = - gaussian x0 mu sigma).
  { unfold gaussian. rewrite Hneg.
    field. split; [|exact Hs]. apply Rgt_not_eq, sqrt_2PI_pos. }
  exists (gaussian x0 mu sigma).
  split; [apply theoretical_code_in_range; [exact Hs|lra]|].
  split; [rewrite theoretical_code_in_range by (rewrite ?Hneg; lra); now rewrite Hval|].
  split; [apply theoretical_code_float_in_range; [exact Hs|lra]|].
  rewrite theoretical_code_float_in_range by (rewrite ?Hneg; lra). now rewrite Hval.
Qed.

Lemma theoretical_code_negative_spread_witness :
  exists v,
    theoretical_code 0 0 1 = ret v /\ theoretical_code 0 0 (- 1) = ret (- v) /\
    theoretical_code_float 0 0 1 = ret v /\
    theoretical_code_float 0 0 (- 1) = ret (- v).
Proof.
  pose proof float_zero_threshold_small. pose proof float_inf_threshold_ge_4.
  apply theoretical_code_negative_spread.
  - lra.
  - replace (1 ^ 2) with 1 by ring. lra.
  - replace (1 ^ 2) with 1 by ring. lra.
Defined.

Lemma theo_outcome p mu sigma :
  theo p mu sigma
  = if Req_dec_T sigma 0 then raise ZeroDivisionError
    else if Rle_dec float_inf_threshold (sigma ^ 2) then raise OverflowError
    else ret (map (fun ti => ti / IZR (N p) * 2)
                  (map (fun xi => gaussian xi mu sigma) (x p))).
Proof.
  unfold theo. rewrite theoretical_code_array_outcome.
  destruct (Req_dec_T sigma 0); [reflexivity|].
  destruct (Rle_dec float_inf_threshold (sigma ^ 2)); reflexivity.
Qed.

(** X12: each reference curve, when computed, has one entry per neuron.
    The references of [A] and [B] raise [ZeroDivisionError] exactly when
    their own spread is 0 and [OverflowError] exactly when the square of
    their own spread is out of the range of doubles. *)
Theorem theo_outcomes (p : params) :
  (forall t, theo_A p = ret t \/ theo_B p = ret t \/ theo_C p = ret t ->
             length t = Z.to_nat (N p)) /\
  (theo_A p = raise ZeroDivisionError <-> a_sig p = 0) /\
  (theo_B p = raise ZeroDivisionError <-> b_sig p = 0) /\
  (theo_A p = raise OverflowError <-> float_inf_threshold <= a_sig p ^ 2) /\
  (theo_B p = raise OverflowError <-> float_inf_threshold <= b_sig p ^ 2).
Proof.
  pose proof float_inf_threshold_pos as Hinf.
  assert (Hlen : forall mu sigma t, theo p mu sigma = ret t ->
                                    length t = Z.to_nat (N p)).
  { intros mu sigma t. rewrite theo_outcome.
    destruct (Req_dec_T sigma 0); [discriminate|].
    destruct (Rle_dec float_inf_threshold (sigma ^ 2)); [discriminate|].
    intros [= <-]. now rewrite !length_map, x_length. }
  assert (Hzero : forall mu sigma,
             theo p mu sigma = raise ZeroDivisionError <-> sigma = 0).
  { intros mu sigma. rewrite theo_outcome.
    destruct (Req_dec_T sigma 0) as [->|Hs]; [tauto|].
    destruct (Rle_dec float_inf_threshold (sigma ^ 2));
      split; try discriminate; intros; contradiction. }
  assert (Hover : forall mu sigma,
             theo p mu sigma = raise OverflowError
             <-> float_inf_threshold <= sigma ^ 2).
  { intros mu sigma. rewrite theo_outcome.
    destruct (Req_dec_T sigma 0) as [->|Hs].
    - replace (0 ^ 2) with 0 by ring. split; [discriminate|lra].
    - destruct (Rle_dec float_inf_threshold (sigma ^ 2));
        split; try discriminate; intros; try reflexivity; try assumption;
        contradiction. }
  split; [|split; [|split; [|split]]].
  - intros t [H | [H | H]]; now apply Hlen in H.
  - apply Hzero.
  - apply Hzero.
  - apply Hover.
  - apply Hover.
Qed.

(** ** Preferred values for any population of at least two neurons *)

(** X13: for [N >= 2], odd or even, the preferred values increase strictly
    with the neuron index and are mirror images about 0: the values of
    neurons [i] and [N-1-i] add up to 0. *)
Theorem preferred_values_mirror (p : params) :
  (2 <= N p)%Z ->
  (forall i j, (i < j)%nat -> (j < Z.to_nat (N p))%nat ->
     nth i (x p) 0 < nth j (x p) 0) /\
  (forall i, (i < Z.to_nat (N p))%nat ->
     nth i (x p) 0 + nth (Z.to_nat (N p) - 1 - i) (x p) 0 = 0).
Proof.
  intros HN.
  assert (Hd : 0 < IZR (N p - 1) / 2).
  { assert (0 < IZR (N p - 1)) by (apply IZR_lt; lia). lra. }
  split.
  - intros i j Hij Hj. rewrite !x_nth by lia.
    apply lt_INR in Hij.
    assert (INR i / (IZR (N p - 1) / 2) < INR j / (IZR (N p - 1) / 2)); [|lra].
    apply Rmult_lt_compat_r; [now apply Rinv_0_lt_compat|exact Hij].
  - intros i Hi. rewrite !x_nth by lia.
    rewrite !minus_INR by lia.
    replace (INR (Z.to_nat (N p))) with (IZR (N p))
      by (rewrite INR_IZR_INZ, Z2Nat.id by lia; reflexivity).
    rewrite minus_IZR. simpl INR. field.
    rewrite minus_IZR in Hd. lra.
Qed.

Lemma preferred_values_mirror_witness :
  nth 10 (x script_params) 0 + nth (Z.to_nat (N script_params) - 1 - 10) (x script_params) 0
  = 0.
Proof.
  apply (preferred_values_mirror script_params).
  - simpl. lia.
  - simpl. lia.
Defined.

(** ** Range and direction of the angle *)

Lemma arctan2_range y x0 : - PI < arctan2 y x0 <= PI.
Proof.
  pose proof PI_RGT_0 as Hpi. pose proof (atan_bound (y / x0)) as Hb.
  unfold arctan2.
  destruct (Rlt_dec 0 x0) as [Hx|Hx]; [lra|].
  destruct (Rlt_dec x0 0) as [Hx'|Hx'].
  - assert (Hinv : / x0 < 0) by now apply Rinv_lt_0_compat.
    destruct (Rle_dec 0 y) as [Hy|Hy].
    + assert (Hq : y / x0 <= 0) by (unfold Rdiv; nra).
      assert (atan (y / x0) <= 0); [|lra].
      destruct Hq as [Hq|Hq]; [|rewrite Hq, atan_0; lra].
      apply atan_increasing in Hq. rewrite atan_0 in Hq. lra.
    + assert (Hq : 0 < y / x0) by (unfold Rdiv; nra).
      apply atan_increasing in Hq. rewrite atan_0 in Hq. lra.
  - destruct (Rlt_dec 0 y); [lra|]. destruct (Rlt_dec y 0); lra.
Qed.

Lemma degrees_radians r : degrees r * PI / 180 = r.
Proof. unfold degrees. field. apply PI_neq0. Qed.

Lemma atan_unit_ratio p q :
  p * p + q * q = 1 -> p <> 0 ->
  cos (atan (q / p)) = Rabs p /\ sin (atan (q / p)) = q / p * Rabs p.
Proof.
  intros Hu Hp.
  assert (Habs : 0 < Rabs p) by now apply Rabs_pos_lt.
  assert (Hsq : 1 + (q / p)² = (/ Rabs p) * (/ Rabs p)).
  { assert (H : 1 + (q / p)² = (p * p + q * q) * (/ p * / p))
      by (unfold Rsqr; field; exact Hp).
    rewrite Hu, Rmult_1_l in H. rewrite H.
    rewrite <- !Rinv_mult. f_equal.
    fold (Rsqr p). fold (Rsqr (Rabs p)). now rewrite <- Rsqr_abs. }
  assert (Hroot : sqrt (1 + (q / p)²) = / Rabs p).
  { rewrite Hsq. apply sqrt_square. left. now apply Rinv_0_lt_compat. }
  rewrite cos_atan, sin_atan, Hroot. split; field; lra.
Qed.

Lemma arctan2_unit p q :
  p * p + q * q = 1 ->
  cos (arctan2 q p) = p /\ sin (arctan2 q p) = q.
Proof.
  intros Hu. unfold arctan2.
  destruct (Rlt_dec 0 p) as [Hp|Hp].
  - destruct (atan_unit_ratio p q Hu ltac:(lra)) as [Hc Hs].
    rewrite Hc, Hs, Rabs_pos_eq by lra. split; [reflexivity|field; lra].
  - destruct (Rlt_dec p 0) as [Hn|Hn].
    + destruct (atan_unit_ratio p q Hu ltac:(lra)) as [Hc Hs].
      rewrite Rabs_left in Hc, Hs by exact Hn.
      destruct (Rle_dec 0 q) as [Hq|Hq].
      * rewrite neg_cos, neg_sin, Hc, Hs. split; [ring|field; lra].
      * rewrite cos_minus, sin_minus, cos_PI, sin_PI, Hc, Hs.
        split; [ring|field; lra].
    + assert (Hp0 : p = 0) by lra. subst p.
      assert (Hq2 : (q - 1) * (q + 1) = 0) by lra.
      apply Rmult_integral in Hq2.
      destruct (Rlt_dec 0 q) as [Hq|Hq].
      * rewrite cos_PI2, sin_PI2. split; [reflexivity|]. destruct Hq2; lra.
      * destruct (Rlt_dec q 0) as [Hq'|Hq'].
        -- rewrite cos_neg, sin_neg, cos_PI2, sin_PI2. split; [reflexivity|].
           destruct Hq2; lra.
        -- exfalso. destruct Hq2; lra.
Qed.

(** X15: whatever [eigh] returns, the angle of a fit of two series of equal
    length at least 2 lies between -180 and 180 degrees, both included. *)
Theorem fit_ellipse_angle_range (eigh : mat2 -> eigh_result) (u v : list R) :
  length u = length v -> (2 <= length u)%nat ->
  exists el,
    fit_ellipse eigh u v = ret el /\ -180 <= angle el <= 180.
Proof.
  intros Hlen _. eexists. split; [now apply fit_ellipse_returns|].
  simpl. unfold angle_of, degrees.
  pose proof PI_RGT_0 as Hpi.
  set (w := column 0 (eigenvectors (eigh (cov (combine u v))))).
  destruct (arctan2_range (snd w) (fst w)) as [Hlo Hhi].
  assert (Hk : 0 < 180 / PI) by (apply Rdiv_lt_0_compat; lra).
  replace (arctan2 (snd w) (fst w) * 180 / PI)
    with (arctan2 (snd w) (fst w) * (180 / PI)) by (field; lra).
  assert (Hk180 : PI * (180 / PI) = 180) by (field; lra).
  set (k := 180 / PI) in *. set (th := arctan2 (snd w) (fst w)) in *.
  clearbody k th. split.
  - assert (- PI * k < th * k) by (apply Rmult_lt_compat_r; lra). lra.
  - assert (th * k <= PI * k) by (apply Rmult_le_compat_r; lra). lra.
Qed.

Lemma fit_ellipse_angle_range_witness :
  exists el,
    fit_ellipse (fun _ => flat_eigh) flat_u flat_v = ret el /\ -180 <= angle el <= 180.
Proof.
  apply fit_ellipse_angle_range.
  - reflexivity.
  - simpl. lia.
Defined.

(** X16: the angle of a fit points along the first eigenvector: when
    column 0 of the eigenvector matrix has unit length, the unit vector at
    the fitted angle (converted back to radians) is that column. *)
Theorem fit_ellipse_angle_direction (eigh : mat2 -> eigh_result) (u v : list R) :
  length u = length v ->
  eigh_spec (cov (combine u v)) (eigh (cov (combine u v))) ->
  exists el,
    fit_ellipse eigh u v = ret el /\
    (cos (angle el * PI / 180), sin (angle el * PI / 180))
    = column 0 (eigenvectors (eigh (cov (combine u v)))).
Proof.
  intros Hlen He. eexists. split; [now apply fit_ellipse_returns|].
  simpl angle. unfold angle_of. rewrite degrees_radians.
  pose proof (eigh_unit0 _ _ He) as Hu. unfold dot2 in Hu.
  destruct (arctan2_unit _ _ Hu) as [Hc Hs].
  rewrite Hc, Hs. now destruct (column 0 _).
Qed.

Lemma fit_ellipse_angle_direction_witness :
  exists el,
    fit_ellipse (fun _ => flat_eigh) flat_u flat_v = ret el /\
    (cos (angle el * PI / 180), sin (angle el * PI / 180))
    = column 0 (eigenvectors ((fun _ => flat_eigh) (cov (combine flat_u flat_v)))).
Proof.
  apply fit_ellipse_angle_direction.
  - reflexivity.
  - exact flat_eigh_spec_cov.
Defined.

(** ** Trace and determinant of the covariance matrix *)

Lemma eigh_trace_det (m : mat2) (e : eigh_result) :
  m01 m = m10 m -> eigh_spec m e ->
  fst (eigenvalues e) + snd (eigenvalues e) = m00 m + m11 m /\
  fst (eigenvalues e) * snd (eigenvalues e) = m00 m * m11 m - m01 m * m10 m.
Proof.
  intros Hsym He.
  pose proof (eigh_value0_quad _ _ He) as Q0.
  pose proof (eigh_value1_quad _ _ He) as Q1.
  destruct He as [_ V0 _ U0 U1 Hor].
  destruct (eigenvalues e) as [l0 l1].
  destruct (eigenvectors e) as [p r q s].
  destruct m as [al be ga de].
  unfold quad, mulv, scale, dot2, column in *. simpl in *. subst ga.
  injection V0 as V0x V0y.
  remember (p * s - q * r) as D eqn:HD.
  assert (HDD : D * D = 1).
  { subst D.
    replace ((p * s - q * r) * (p * s - q * r))
      with ((p * p + q * q) * (r * r + s * s) - (p * r + q * s) * (p * r + q * s))
      by ring.
    rewrite U0, U1, Hor. ring. }
  assert (HrD : r = - D * q).
  { assert (H : r - (- D * q) = p * (p * r + q * s) + r * (1 - (p * p + q * q)))
      by (subst D; ring).
    rewrite Hor, U0 in H. lra. }
  assert (HsD : s = D * p).
  { assert (H : s - D * p = q * (p * r + q * s) + s * (1 - (p * p + q * q)))
      by (subst D; ring).
    rewrite Hor, U0 in H. lra. }
  clear HD.
  assert (R1 : p * p + r * r = 1).
  { replace (r * r) with ((D * D) * (q * q)) by (rewrite HrD; ring).
    rewrite HDD. lra. }
  assert (R2 : p * q + r * s = 0).
  { replace (r * s) with (- (D * D) * (p * q)) by (rewrite HrD, HsD; ring).
    rewrite HDD. ring. }
  assert (R3 : q * q + s * s = 1).
  { replace (s * s) with ((D * D) * (p * p)) by (rewrite HsD; ring).
    rewrite HDD. lra. }
  assert (Htr : l0 + l1 = al + de).
  { rewrite Q0, Q1.
    replace (p * (al * p + be * q) + q * (be * p + de * q)
             + (r * (al * r + be * s) + s * (be * r + de * s)))
      with (al * (p * p + r * r) + 2 * be * (p * q + r * s) + de * (q * q + s * s))
      by ring.
    rewrite R1, R2, R3. ring. }
  split; [exact Htr|].
  assert (Hchar : (al - l0) * (de - l0) - be * be = 0).
  { replace ((al - l0) * (de - l0) - be * be)
      with (((al - l0) * (de - l0) - be * be) * (p * p + q * q))
      by (rewrite U0; ring).
    replace (((al - l0) * (de - l0) - be * be) * (p * p + q * q))
      with ((p * (de - l0) - be * q) * (al * p + be * q - l0 * p)
            + (q * (al - l0) - be * p) * (be * p + de * q - l0 * q)) by ring.
    rewrite V0x, V0y. ring. }
  assert (Hde : de = l0 + l1 - al) by lra. rewrite Hde in Hchar |- *.
  lra.
Qed.

(** X17: for two series of equal length at least 2, the width of the fit
    never exceeds its height, and the squares of the two semi-axes in units
    of two standard deviations, [(width/4)^2] and [(height/4)^2], add up to
    the sum of the two sample variances. *)
Theorem fit_ellipse_axes_order (eigh : mat2 -> eigh_result) (u v : list R) :
  length u = length v -> (2 <= length u)%nat ->
  eigh_spec (cov (combine u v)) (eigh (cov (combine u v))) ->
  exists el,
    fit_ellipse eigh u v = ret el /\
    width el <= height el /\
    (width el / 4) * (width el / 4) + (height el / 4) * (height el / 4)
    = m00 (cov (combine u v)) + m11 (cov (combine u v)).
Proof.
  intros Hlen Hn He.
  assert (Hdata : (2 <= length (combine u v))%nat)
    by (rewrite length_combine, <- Hlen, Nat.min_id; exact Hn).
  eexists. split; [now apply fit_ellipse_returns|]. cbn [width height].
  set (cm := cov (combine u v)) in *.
  assert (H0 : 0 <= fst (eigenvalues (eigh cm)))
    by (rewrite (eigh_value0_quad _ _ He); now apply cov_quad_nonneg).
  pose proof (eigh_ascending _ _ He) as Hasc.
  assert (H1 : 0 <= snd (eigenvalues (eigh cm))) by lra.
  destruct (eigh_trace_det cm (eigh cm) (cov_symmetric _) He) as [Htr _].
  pose proof (sqrt_sqrt _ H0) as Q0. pose proof (sqrt_sqrt _ H1) as Q1.
  split.
  - apply Rmult_le_compat_l; [lra|]. now apply sqrt_le_1_alt.
  - rewrite <- Htr.
    set (s0 := sqrt (fst (eigenvalues (eigh cm)))) in *.
    set (s1 := sqrt (snd (eigenvalues (eigh cm)))) in *.
    replace (4 * s0 / 4 * (4 * s0 / 4) + 4 * s1 / 4 * (4 * s1 / 4))
      with (s0 * s0 + s1 * s1) by field.
    now rewrite Q0, Q1.
Qed.

Lemma fit_ellipse_axes_order_witness :
  exists el,
    fit_ellipse (fun _ => flat_eigh) flat_u flat_v = ret el /\
    width el <= height el /\
    (width el / 4) * (width el / 4) + (height el / 4) * (height el / 4)
    = m00 (cov (combine flat_u flat_v)) + m11 (cov (combine flat_u flat_v)).
Proof.
  apply fit_ellipse_axes_order.
  - reflexivity.
  - simpl. lia.
  - exact flat_eigh_spec_cov.
Defined.

(** ** Uncorrelated series *)

Lemma diagonal_first_column (m : mat2) (e : eigh_result) :
  m01 m = 0 -> m10 m = 0 -> m00 m <> m11 m -> eigh_spec m e ->
  let w := column 0 (eigenvectors e) in
  (m00 m < m11 m -> snd w = 0 /\ (fst w = 1 \/ fst w = -1)) /\
  (m11 m < m00 m -> fst w = 0 /\ (snd w = 1 \/ snd w = -1)).
Proof.
  intros H01 H10 Hne He.
  assert (Hsym : m01 m = m10 m) by congruence.
  assert (E0 : is_eigenvector m (m00 m) (1, 0)).
  { split; [intros H; injection H; lra|].
    unfold mulv, scale; simpl; rewrite H10; f_equal; ring. }
  assert (E1 : is_eigenvector m (m11 m) (0, 1)).
  { split; [intros H; injection H; lra|].
    unfold mulv, scale; simpl; rewrite H01; f_equal; ring. }
  pose proof (eigh_complete _ _ He _ _ Hsym E0) as C0.
  pose proof (eigh_complete _ _ He _ _ Hsym E1) as C1.
  destruct He as [Hasc V0 _ U0 _ _].
  destruct (eigenvalues e) as [l0 l1]. destruct (eigenvectors e) as [p r q s].
  destruct m as [al be ga de].
  unfold mulv, scale, dot2, column in *. simpl in *. subst be ga.
  injection V0 as Vx Vy.
  assert (Hroots : forall z, z * z = 1 -> z = 1 \/ z = -1).
  { intros z Hz. assert (Hf : (z - 1) * (z + 1) = 0) by lra.
    apply Rmult_integral in Hf. destruct Hf; [left|right]; lra. }
  split; intros Hlt.
  - assert (Hl0 : l0 = al) by (destruct C0, C1; lra). subst l0.
    assert (Hq : (de - al) * q = 0) by lra.
    apply Rmult_integral in Hq. destruct Hq as [Hq|Hq]; [lra|]. subst q.
    split; [reflexivity|]. apply Hroots. lra.
  - assert (Hl0 : l0 = de) by (destruct C0, C1; lra). subst l0.
    assert (Hp : (al - de) * p = 0) by lra.
    apply Rmult_integral in Hp. destruct Hp as [Hp|Hp]; [lra|]. subst p.
    split; [reflexivity|]. apply Hroots. lra.
Qed.

(** X18: when the two series have sample covariance 0 and different sample
    variances, the fitted ellipse is aligned with the coordinate axes: the
    angle is 0 or 180 degrees when the first series has the smaller variance
    and 90 or -90 degrees when it has the larger one. *)
Theorem fit_ellipse_uncorrelated (eigh : mat2 -> eigh_result) (u v : list R) :
  length u = length v ->
  eigh_spec (cov (combine u v)) (eigh (cov (combine u v))) ->
  m01 (cov (combine u v)) = 0 ->
  m00 (cov (combine u v)) <> m11 (cov (combine u v)) ->
  exists el,
    fit_ellipse eigh u v = ret el /\
    (m00 (cov (combine u v)) < m11 (cov (combine u v)) ->
     angle el = 0 \/ angle el = 180) /\
    (m11 (cov (combine u v)) < m00 (cov (combine u v)) ->
     angle el = 90 \/ angle el = -90).
Proof.
  intros Hlen He H01 Hne.
  eexists. split; [now apply fit_ellipse_returns|]. cbn [angle].
  assert (H10 : m10 (cov (combine u v)) = 0) by (rewrite <- cov_symmetric; exact H01).
  destruct (diagonal_first_column _ _ H01 H10 Hne He) as [Hlt Hgt].
  unfold angle_of.
  set (w := column 0 (eigenvectors (eigh (cov (combine u v))))) in *.
  split; intros Hcmp.
  - destruct (Hlt Hcmp) as [-> [-> | ->]].
    + left. rewrite arctan2_east by lra.
      replace 0 with (0 * PI) at 1 by ring. rewrite degrees_PI_scaled. ring.
    + right. rewrite arctan2_west by lra.
      replace PI with (1 * PI) at 1 by ring. rewrite degrees_PI_scaled. ring.
  - destruct (Hgt Hcmp) as [-> [-> | ->]].
    + left. rewrite arctan2_north by lra.
      replace (PI / 2) with (/ 2 * PI) by field.
      rewrite degrees_PI_scaled. field.
    + right. rewrite arctan2_south by lra.
      replace (- (PI / 2)) with (- / 2 * PI) by field.
      rewrite degrees_PI_scaled. field.
Qed.

Lemma fit_ellipse_uncorrelated_witness :
  exists el,
    fit_ellipse (fun _ => flat_eigh) flat_u flat_v = ret el /\
    (m00 (cov (combine flat_u flat_v)) < m11 (cov (combine flat_u flat_v)) ->
     angle el = 0 \/ angle el = 180) /\
    (m11 (cov (combine flat_u flat_v)) < m00 (cov (combine flat_u flat_v)) ->
     angle el = 90 \/ angle el = -90).
Proof.
  apply fit_ellipse_uncorrelated.
  - reflexivity.
  - exact flat_eigh_spec_cov.
  - rewrite flat_cov_eq. reflexivity.
  - rewrite flat_cov_eq. simpl. lra.
Defined.

(** ** Shifting the series *)

Lemma sum_shift c l :
  np.sum (map (fun y => y + c) l) = np.sum l + INR (length l) * c.
Proof.
  induction l as [|y l IH].
  - unfold np.sum. simpl. ring.
  - change (np.sum (map (fun y => y + c) (y :: l)))
      with (y + c + np.sum (map (fun y => y + c) l)).
    change (np.sum (y :: l)) with (y + np.sum l).
    change (length (y :: l)) with (S (length l)).
    rewrite IH, S_INR. ring.
Qed.

Lemma mean_shift c l :
  l <> [] -> np.mean (map (fun y => y + c) l) = np.mean l + c.
Proof.
  intros Hl. unfold np.mean. rewrite sum_shift, length_map. field.
  apply not_0_INR. destruct l; [contradiction|discriminate].
Qed.

Lemma centred_shift c l :
  map (fun y => y - np.mean (map (fun y => y + c) l)) (map (fun y => y + c) l)
  = map (fun y => y - np.mean l) l.
Proof.
  destruct l as [|y0 l]; [reflexivity|].
  rewrite mean_shift by discriminate. rewrite map_map.
  apply map_ext. intros y. ring.
Qed.

Lemma cov_shift c d data :
  cov (map (fun pt => (fst pt + c, snd pt + d)) data) = cov data.
Proof.
  unfold cov. rewrite length_map.
  replace (map fst (map (fun pt : R * R => (fst pt + c, snd pt + d)) data))
    with (map (fun y => y + c) (map fst data)) by (rewrite !map_map; reflexivity).
  replace (map snd (map (fun pt : R * R => (fst pt + c, snd pt + d)) data))
    with (map (fun y => y + d) (map snd data)) by (rewrite !map_map; reflexivity).
  now rewrite !centred_shift.
Qed.

Lemma combine_shift c d (u v : list R) :
  combine (map (fun y => y + c) u) (map (fun y => y + d) v)
  = map (fun pt => (fst pt + c, snd pt + d)) (combine u v).
Proof.
  revert v. induction u as [|y u IH]; intros [|z v]; simpl; try reflexivity.
  now rewrite IH.
Qed.

(** X19: adding a constant to each of two series of equal length at least
    2 changes neither the width, nor the height, nor the angle of the fit;
    the centre moves by the two constants. *)
Theorem fit_ellipse_shift (eigh : mat2 -> eigh_result) (u v : list R) (c d : R) :
  length u = length v -> (2 <= length u)%nat ->
  exists el el',
    fit_ellipse eigh u v = ret el /\
    fit_ellipse eigh (map (fun y => y + c) u) (map (fun y => y + d) v) = ret el' /\
    width el' = width el /\ height el' = height el /\ angle el' = angle el /\
    xy el' = (fst (xy el) + c, snd (xy el) + d).
Proof.
  intros Hlen Hn.
  assert (Hu : u <> []) by (intros ->; simpl in Hn; lia).
  do 2 eexists.
  split; [now apply fit_ellipse_returns|].
  split; [apply fit_ellipse_returns; now rewrite !length_map|].
  cbn [width height angle xy]. rewrite combine_shift, cov_shift.
  repeat split.
  unfold mean_axis0. cbn [fst snd].
  assert (Hne : combine u v <> []).
  { destruct u as [|y u]; [contradiction|].
    destruct v as [|z v]; [discriminate|discriminate]. }
  replace (map fst (map (fun pt : R * R => (fst pt + c, snd pt + d)) (combine u v)))
    with (map (fun y => y + c) (map fst (combine u v)))
    by (rewrite !map_map; reflexivity).
  replace (map snd (map (fun pt : R * R => (fst pt + c, snd pt + d)) (combine u v)))
    with (map (fun y => y + d) (map snd (combine u v)))
    by (rewrite !map_map; reflexivity).
  rewrite !mean_shift; [reflexivity| |].
  - destruct (combine u v); [contradiction|discriminate].
  - destruct (combine u v); [contradiction|discriminate].
Qed.

Lemma fit_ellipse_shift_witness :
  exists el el',
    fit_ellipse (fun _ => flat_eigh) flat_u flat_v = ret el /\
    fit_ellipse (fun _ => flat_eigh)
      (map (fun y => y + 1) flat_u) (map (fun y => y + 3) flat_v) = ret el' /\
    width el' = width el /\ height el' = height el /\ angle el' = angle el /\
    xy el' = (fst (xy el) + 1, snd (xy el) + 3).
Proof.
  apply fit_ellipse_shift.
  - reflexivity.
  - simpl. lia.
Defined.

(** ** Degenerate fits *)

Lemma dot_zero_l k l : dot (repeat 0 k) l = 0.
Proof.
  revert l. induction k as [|k IH]; intros [|y l]; simpl; try reflexivity.
  rewrite IH. ring.
Qed.

Lemma centred_constant c l :
  Forall (fun y => y = c) l ->
  map (fun y => y - np.mean l) l = repeat 0 (length l).
Proof.
  intros Hc. destruct l as [|y0 l]; [reflexivity|].
  assert (Hsum : forall l', Forall (fun y => y = c) l' ->
                            np.sum l' = INR (length l') * c).
  { induction 1 as [|y l' -> _ IH].
    - unfold np.sum. simpl. ring.
    - change (np.sum (c :: l')) with (c + np.sum l').
      change (length (c :: l')) with (S (length l')). rewrite IH, S_INR. ring. }
  assert (Hmean : np.mean (y0 :: l) = c).
  { unfold np.mean. rewrite (Hsum _ Hc). field.
    apply not_0_INR. discriminate. }
  rewrite Hmean. clear Hmean Hsum.
  induction Hc as [|y l' -> _ IH]; [reflexivity|].
  simpl. f_equal; [ring|exact IH].
Qed.

(** X20: when the first of two series of equal length at least 2 is
    constant, the fit degenerates: the width is 0 and the height is
    [4 sqrt] of the sample variance of the second series; when both are
    constant, width and height are 0. *)
Theorem fit_ellipse_constant_series (eigh : mat2 -> eigh_result) (u v : list R) (c : R) :
  length u = length v -> (2 <= length u)%nat ->
  eigh_spec (cov (combine u v)) (eigh (cov (combine u v))) ->
  Forall (fun y => y = c) u ->
  exists el,
    fit_ellipse eigh u v = ret el /\
    width el = 0 /\
    height el = 4 * sqrt (m11 (cov (combine u v))) /\
    (forall d, Forall (fun y => y = d) v -> height el = 0).
Proof.
  intros Hlen Hn He Hc.
  assert (Hdata : (2 <= length (combine u v))%nat)
    by (rewrite length_combine, <- Hlen, Nat.min_id; exact Hn).
  assert (Hfst : map fst (combine u v) = u).
  { clear -Hlen. revert v Hlen.
    induction u as [|y u IH]; intros [|z v] Hlen; simpl in *; try lia; try reflexivity.
    f_equal. apply IH. lia. }
  assert (Hsnd : map snd (combine u v) = v).
  { clear -Hlen. revert v Hlen.
    induction u as [|y u IH]; intros [|z v] Hlen; simpl in *; try lia; try reflexivity.
    f_equal. apply IH. lia. }
  assert (H00 : m00 (cov (combine u v)) = 0).
  { unfold cov. cbn [m00]. rewrite Hfst, (centred_constant c u Hc), dot_zero_l. ring. }
  assert (H01 : m01 (cov (combine u v)) = 0).
  { unfold cov. cbn [m01]. rewrite Hfst, (centred_constant c u Hc), dot_zero_l. ring. }
  assert (H10 : m10 (cov (combine u v)) = 0) by (rewrite <- cov_symmetric; exact H01).
  eexists. split; [now apply fit_ellipse_returns|]. cbn [width height].
  set (cm := cov (combine u v)) in *.
  assert (L0 : 0 <= fst (eigenvalues (eigh cm)))
    by (rewrite (eigh_value0_quad _ _ He); now apply cov_quad_nonneg).
  pose proof (eigh_ascending _ _ He) as Hasc.
  destruct (eigh_trace_det cm (eigh cm) (cov_symmetric _) He) as [Htr Hdet].
  rewrite H00, H01, H10 in Hdet. rewrite H00 in Htr.
  assert (Hl0 : fst (eigenvalues (eigh cm)) = 0).
  { assert (Hz : fst (eigenvalues (eigh cm)) * snd (eigenvalues (eigh cm)) = 0) by lra.
    apply Rmult_integral in Hz. destruct Hz; lra. }
  assert (Hl1 : snd (eigenvalues (eigh cm)) = m11 cm) by lra.
  rewrite Hl0, Hl1, sqrt_0.
  split; [ring|]. split; [reflexivity|].
  intros d Hd.
  assert (H11 : m11 cm = 0).
  { unfold cm, cov. cbn [m11]. rewrite Hsnd, (centred_constant d v Hd), dot_zero_l. ring. }
  rewrite H11, sqrt_0. ring.
Qed.

Lemma fit_ellipse_constant_series_witness :
  exists el,
    fit_ellipse eigh_closed flat_v flat_u = ret el /\
    width el = 0 /\
    height el = 4 * sqrt (m11 (cov (combine flat_v flat_u))) /\
    (forall d, Forall (fun y => y = d) flat_u -> height el = 0).
Proof.
  apply (fit_ellipse_constant_series eigh_closed flat_v flat_u 0).
  - reflexivity.
  - simpl. lia.
  - apply cov_has_eigh.
  - repeat constructor.
Defined.

(** ** Histogram over more steps than were simulated *)

(** X21: when [histogram_steps] is positive and at least the number of
    samples of every row, the slice is clipped to the row but the divisor is
    not: each histogram entry is the sum of the whole row divided by
    [histogram_steps], so [histogram_steps] times the sum of the histogram
    is the total activation. *)
Theorem histogram_clipped (m : list (list R)) (histogram_steps : Z) :
  (1 <= histogram_steps)%Z ->
  Forall (fun row => (Z.of_nat (length row) <= histogram_steps)%Z) m ->
  histogram m histogram_steps = map (fun row => np.sum row / IZR histogram_steps) m /\
  IZR histogram_steps * np.sum (histogram m histogram_steps) = activation m.
Proof.
  intros Hh Hrows.
  assert (Hpos : IZR histogram_steps <> 0) by (apply not_0_IZR; lia).
  assert (Hslice : map (slice_0 histogram_steps) m = m).
  { rewrite <- (map_id m) at 2. apply map_ext_Forall.
    eapply Forall_impl; [|exact Hrows]. intros row Hrow. cbv beta in Hrow |- *.
    unfold slice_0.
    replace (histogram_steps <? 0)%Z with false by (symmetry; apply Z.ltb_ge; lia).
    apply firstn_all2. lia. }
  unfold histogram. rewrite Hslice. split.
  - unfold np.sum_axis1. now rewrite map_map.
  - rewrite sum_scaled. unfold activation. field. exact Hpos.
Qed.

Lemma histogram_clipped_witness :
  histogram [[1; 0; 1]; [0; 0; 1]] 4
  = map (fun row => np.sum row / IZR 4) [[1; 0; 1]; [0; 0; 1]] /\
  IZR 4 * np.sum (histogram [[1; 0; 1]; [0; 0; 1]] 4)
  = activation [[1; 0; 1]; [0; 0; 1]].
Proof.
  apply histogram_clipped.
  - lia.
  - repeat constructor; simpl; lia.
Defined.

(** ** Failures inside the loop and the analysis after it *)

Section LoopOutcomes.

Variable Rng : Type.
Variable create_code : R -> R -> Z -> Rng -> Exc (list R * Rng).
Variable compute : list R -> list R -> Rng -> Exc (list R * Rng).

Lemma simulate_first_step p g :
  (0 <= N p)%Z -> (1 <= num_steps p)%Z ->
  exists st0 ts,
    init Rng p g = ret st0 /\ rng st0 = g /\
    length (A st0) = Z.to_nat (N p) /\
    simulate Rng create_code compute p g
    = match sim_step Rng create_code compute p 0 st0 with
      | inl e => (1%nat, raise e)
      | inr st1 => sim_loop Rng create_code compute p ts st1 1
      end.
Proof.
  intros HN HT. unfold simulate. rewrite init_checks_dimensions_only.
  replace ((N p <? 0) || (num_steps p <? 0))%Z with false
    by (symmetry; apply orb_false_intro; apply Z.ltb_ge; lia).
  cbv zeta. unfold range.
  destruct (Z.to_nat (num_steps p)) as [|k] eqn:Ek; [lia|].
  eexists. exists (seq 1 k). split; [reflexivity|].
  split; [reflexivity|]. split; [apply repeat_length|]. reflexivity.
Qed.

(** X22: with [N >= 0] and at least one step, an exception raised by the
    first call of the generator ends the run after one entered step with
    that exception, and a generated vector whose length is neither [N] nor 1
    ends it with [ValueError]. *)
Theorem simulate_first_failure (p : params) (g : Rng) :
  (0 <= N p)%Z -> (1 <= num_steps p)%Z ->
  (forall e,
     create_code (a p) (a_sig p) (N p) g = raise e ->
     simulate Rng create_code compute p g = (1%nat, raise e)) /\
  (forall v g',
     create_code (a p) (a_sig p) (N p) g = ret (v, g') ->
     length v <> Z.to_nat (N p) -> length v <> 1%nat ->
     simulate Rng create_code compute p g = (1%nat, raise ValueError)).
Proof.
  intros HN HT.
  destruct (simulate_first_step p g HN HT) as (st0 & ts & _ & Hrng & HA & Hsim).
  split.
  - intros e He. rewrite Hsim. unfold sim_step. rewrite Hrng, He. reflexivity.
  - intros v g' Hv Hl1 Hl2. rewrite Hsim. unfold sim_step. rewrite Hrng, Hv.
    simpl. unfold set_col. rewrite HA.
    replace (Nat.eqb (length v) (Z.to_nat (N p))) with false
      by (symmetry; now apply Nat.eqb_neq).
    replace (Nat.eqb (length v) 1) with false
      by (symmetry; now apply Nat.eqb_neq).
    reflexivity.
Qed.

Lemma simulate_returns_shaped p g st :
  snd (simulate Rng create_code compute p g) = ret st ->
  state_shaped (Z.to_nat (N p)) (Z.to_nat (num_steps p)) st.
Proof.
  unfold simulate. destruct (init Rng p g) as [e0|st0] eqn:E; [discriminate|].
  pose proof (init_shaped Rng p g st0 E) as Hsh.
  destruct (sim_loop Rng create_code compute p (range (num_steps p)) st0 O)
    as [k r] eqn:El.
  simpl. intros ->.
  now apply (sim_loop_returns Rng create_code compute p _ st0 O k st _ _ Hsh) in El.
Qed.

(** X23: after a run that returns, the analysis of lines 83-85 and 176-187
    goes through for a positive bin size: the estimator returns for each of
    [A], [B] and [C] a list of [N] rate sequences of [num_steps // bin]
    entries, and when there are at least two bins the fit of any two rows
    of the rates of [C] has at least two points and returns an ellipse
    rather than raising. *)
Theorem analysis_after_simulation (eigh : mat2 -> eigh_result)
  (p : params) (g : Rng) (st : sim_state Rng) :
  snd (simulate Rng create_code compute p g) = ret st ->
  (1 <= firing_rate_bin p)%Z ->
  (2 * firing_rate_bin p <= num_steps p)%Z ->
  exists rf_A rf_B rf_C,
    firing_rate (A st) (firing_rate_bin p) = ret rf_A /\
    firing_rate (B st) (firing_rate_bin p) = ret rf_B /\
    firing_rate (C st) (firing_rate_bin p) = ret rf_C /\
    Forall (fun rf =>
              length rf = Z.to_nat (N p) /\
              Forall (fun r => length r
                               = Z.to_nat (Z.of_nat (Z.to_nat (num_steps p))
                                           / firing_rate_bin p)) rf)
           [rf_A; rf_B; rf_C] /\
    forall n1 n2, (n1 < Z.to_nat (N p))%nat -> (n2 < Z.to_nat (N p))%nat ->
      (2 <= length (nth n1 rf_C []))%nat /\
      exists el, fit_ellipse eigh (nth n1 rf_C []) (nth n2 rf_C []) = ret el.
Proof.
  intros Hsim Hbin Hbins.
  destruct (simulate_returns_shaped p g st Hsim) as (HA & HB & HC).
  set (T := Z.to_nat (num_steps p)) in *. set (n := Z.to_nat (N p)) in *.
  set (bin := firing_rate_bin p) in *.
  assert (Hshape : forall m, shaped n T m ->
            length (map (binned bin) m) = n /\
            Forall (fun r => length r = Z.to_nat (Z.of_nat T / bin))
                   (map (binned bin) m)).
  { intros m [Hn HT]. split; [now rewrite length_map|].
    apply Forall_map. eapply Forall_impl; [|exact HT].
    intros row Hrow. cbv beta in Hrow |- *.
    rewrite binned_length. unfold bins_of. now rewrite Hrow. }
  exists (map (binned bin) (A st)), (map (binned bin) (B st)), (map (binned bin) (C st)).
  split; [now apply firing_rate_binned|].
  split; [now apply firing_rate_binned|].
  split; [now apply firing_rate_binned|].
  split; [repeat constructor; now apply Hshape|].
  intros n1 n2 H1 H2.
  destruct (Hshape (C st) HC) as [Hlen Hrows].
  rewrite Forall_forall in Hrows.
  pose proof (Hrows (nth n1 (map (binned bin) (C st)) []) ltac:(apply nth_In; lia)) as L1.
  pose proof (Hrows (nth n2 (map (binned bin) (C st)) []) ltac:(apply nth_In; lia)) as L2.
  split.
  - rewrite L1. unfold T.
    assert (2 <= Z.of_nat (Z.to_nat (num_steps p)) / bin)%Z; [|lia].
    apply Z.div_le_lower_bound; lia.
  - eexists. apply fit_ellipse_returns. now rewrite L1, L2.
Qed.

End LoopOutcomes.

Lemma simulate_first_failure_witness :
  simulate unit (fun _ _ _ g => ret ([1; 2; 3], g)) first_code even_params tt
  = (1%nat, raise ValueError).
Proof.
  apply (simulate_first_failure unit (fun _ _ _ g => ret ([1; 2; 3], g)) first_code
           even_params tt ltac:(simpl; lia) ltac:(simpl; lia)) with (v := [1; 2; 3]) (g' := tt).
  - reflexivity.
  - discriminate.
  - discriminate.
Defined.

Lemma analysis_after_simulation_witness :
  exists rf_A rf_B rf_C,
    firing_rate (A pair_state) (firing_rate_bin pair_params) = ret rf_A /\
    firing_rate (B pair_state) (firing_rate_bin pair_params) = ret rf_B /\
    firing_rate (C pair_state) (firing_rate_bin pair_params) = ret rf_C /\
    Forall (fun rf =>
              length rf = Z.to_nat (N pair_params) /\
              Forall (fun r => length r
                               = Z.to_nat (Z.of_nat (Z.to_nat (num_steps pair_params))
                                           / firing_rate_bin pair_params)) rf)
           [rf_A; rf_B; rf_C] /\
    forall n1 n2,
      (n1 < Z.to_nat (N pair_params))%nat -> (n2 < Z.to_nat (N pair_params))%nat ->
      (2 <= length (nth n1 rf_C []))%nat /\
      exists el, fit_ellipse eigh_closed (nth n1 rf_C []) (nth n2 rf_C []) = ret el.
Proof.
  apply (analysis_after_simulation unit silent_code first_code eigh_closed
           pair_params tt pair_state).
  - reflexivity.
  - simpl. lia.
  - simpl. lia.
Defined.
